(** * LumiSpy [utils/axes.py]: axis conversion and joining of spectra

    A shallow embedding of [lumispy/utils/axes.py].

    Numbers.  NumPy's float64 values are idealised: a finite value is an
    exact rational ([Q]), [NaN] is kept as a value of its own (the scaling
    factor of [join_spectra] is computed with a NaN-ignoring mean), and the
    infinities are not represented.  Axis coordinates are plain rationals.

    Arrays.  The intensity array of a signal has the signal axis last; it
    is embedded as a list of rows, one row per navigation pixel (a single
    spectrum is one row).  This covers navigation spaces of dimension zero
    and one.

    Collaborators.  [value2index] (hyperspy) and [interp1d] (scipy) are
    not part of the module: [join_spectra] is written over arbitrary
    implementations of both, and reference implementations are supplied
    for the worked examples. *)

From Stdlib Require Import QArith Qabs Qround Qminmax Qfield Lra Lia ZArith List String Psatz.
From stdpp Require Import base list strings.

Open Scope Q_scope.

(* ================================================================== *)
(** * Values and exceptions *)

Inductive float64 : Type :=
| Num (q : Q)
| NaN.

Definition fadd (x y : float64) : float64 :=
  match x, y with
  | Num a, Num b => Num (a + b)
  | _, _ => NaN
  end.

Definition fmul (x y : float64) : float64 :=
  match x, y with
  | Num a, Num b => Num (a * b)
  | _, _ => NaN
  end.

(** [x != 0] of NumPy: true for NaN. *)
Definition fnonzero (x : float64) : bool :=
  match x with
  | Num a => negb (Qeq_bool a 0)
  | NaN => true
  end.

(** Division; a zero divisor (an infinity or NaN in IEEE arithmetic) is
    collapsed into [NaN]. *)
Definition fdiv (x y : float64) : float64 :=
  match x, y with
  | Num a, Num b => if Qeq_bool b 0 then NaN else Num (a / b)
  | _, _ => NaN
  end.

(** Equality of values up to the representation of the rational. *)
Definition feq (x y : float64) : Prop :=
  match x, y with
  | Num a, Num b => a == b
  | NaN, NaN => True
  | _, _ => False
  end.

Definition feqb (x y : float64) : bool :=
  match x, y with
  | Num a, Num b => Qeq_bool a b
  | NaN, NaN => true
  | _, _ => false
  end.

Inductive exn : Type :=
| AttributeError (msg : string)
| ValueError (msg : string)
| IndexError
| LibraryError.

(** The three failures the module raises itself. *)
Definition UnitError : exn := AttributeError "Signal unit is already eV.".
Definition OverlapError : exn := ValueError "Signal axes not overlapping".
Definition RangeError : exn := ValueError "`r` is too large".

Inductive result (A : Type) : Type :=
| Ok (a : A)
| Raise (e : exn).
Arguments Ok {A} a.
Arguments Raise {A} e.

Definition rbind {A B} (m : result A) (k : A -> result B) : result B :=
  match m with
  | Ok a => k a
  | Raise e => Raise e
  end.

(** An absent value of a library call becomes the exception [e]. *)
Definition orelse {A} (o : option A) (e : exn) : result A :=
  match o with
  | Some a => Ok a
  | None => Raise e
  end.

Notation "'let*' x ':=' m 'in' k" := (rbind m (fun x => k))
  (at level 10, x pattern, m at level 100, k at level 200).

(* ================================================================== *)
(** * NumPy indexing, slicing and broadcasting on the last axis *)

(** [l[i]] with Python's negative indices. *)
Definition py_index {A} (l : list A) (i : Z) : option A :=
  let n := Z.of_nat (length l) in
  if ((0 <=? i) && (i <? n))%Z then l !! Z.to_nat i
  else if ((- n <=? i) && (i <? 0))%Z then l !! Z.to_nat (n + i)
  else None.

(** A slice bound, clamped the way [slice.indices] does for step one. *)
Definition slice_bound (n : Z) (dflt : Z) (b : option Z) : Z :=
  match b with
  | None => dflt
  | Some i => if (i <? 0)%Z then Z.max (i + n) 0 else Z.min i n
  end.

(** [l[start:stop]]. *)
Definition py_slice {A} (start stop : option Z) (l : list A) : list A :=
  let n := Z.of_nat (length l) in
  let a := slice_bound n 0 start in
  let b := slice_bound n n stop in
  take (Z.to_nat (b - a)) (drop (Z.to_nat a) l).

(** [s.isig[start:stop].data] for integer bounds.  hyperspy's slicing by
    signal index is taken to be NumPy's slicing of the last axis of the
    data: the slice taken in every row. *)
Definition isig (start stop : option Z) (data : list (list float64))
  : list (list float64) :=
  map (py_slice start stop) data.

(** Broadcasting of one dimension onto a required length. *)
Definition broadcast_to {A} (n : nat) (l : list A) : option (list A) :=
  if Nat.eqb (length l) n then Some l
  else match l with
       | [x] => Some (replicate n x)
       | _ => None
       end.

(** Mutual broadcasting of two one-dimensional operands. *)
Definition broadcast2 {A B C} (f : A -> B -> C) (l1 : list A) (l2 : list B)
  : option (list C) :=
  if Nat.eqb (length l1) (length l2) then Some (zip_with f l1 l2)
  else match l1, l2 with
       | [x], _ => Some (map (f x) l2)
       | _, [y] => Some (map (fun a => f a y) l1)
       | _, _ => None
       end.

Fixpoint mapM {A B} (f : A -> option B) (l : list A) : option (list B) :=
  match l with
  | [] => Some []
  | x :: l' =>
      match f x, mapM f l' with
      | Some y, Some ys => Some (y :: ys)
      | _, _ => None
      end
  end.

(** [np.divide(a, b, out=out, where=mask)] on arrays whose output has the
    shape of [b], [out] and [mask]: [a] is broadcast to that shape, the
    quotient is stored where the mask holds and [out] is kept elsewhere. *)
Definition divide_row (a b out : list float64) (mask : list bool)
  : option (list float64) :=
  match broadcast_to (length b) a with
  | Some a' =>
      Some (zip_with (fun '(x, y) '(o, m) => if (m : bool) then fdiv x y else o)
                     (zip a' b) (zip out mask))
  | None => None
  end.

Definition np_divide (a b out : list (list float64)) (mask : list (list bool))
  : option (list (list float64)) :=
  match broadcast_to (length b) a with
  | Some a' =>
      mapM (fun '(x, y, (o, m)) => divide_row x y o m)
           (zip (zip a' b) (zip out mask))
  | None => None
  end.

(** [np.nanmean(_, axis=-1)] of one row: the mean of the entries that are
    not NaN, and NaN when there is none. *)
Definition nan_free (row : list float64) : list Q :=
  omap (fun x => match x with Num q => Some q | NaN => None end) row.

Definition Qsum (l : list Q) : Q := fold_right Qplus 0 l.

Definition nanmean_row (row : list float64) : float64 :=
  match nan_free row with
  | [] => NaN
  | qs => Num (Qsum qs / inject_Z (Z.of_nat (length qs)))
  end.

Definition nanmean (a : list (list float64)) : list float64 :=
  map nanmean_row a.

(** [np.mean([a, b], axis=0)]: both arrays must have one shape. *)
Definition fhalf_sum (x y : float64) : float64 :=
  fdiv (fadd x y) (Num 2).

Definition mean2_row (a b : list float64) : option (list float64) :=
  if Nat.eqb (length a) (length b) then Some (zip_with fhalf_sum a b) else None.

Definition np_mean2 (a b : list (list float64)) : option (list (list float64)) :=
  if Nat.eqb (length a) (length b)
  then mapM (fun '(x, y) => mean2_row x y) (zip a b)
  else None.

(** [np.hstack] of arrays with the signal axis last: rows are joined
    pairwise, and the numbers of rows must agree. *)
Definition hstack2 (a b : list (list float64)) : option (list (list float64)) :=
  if Nat.eqb (length a) (length b) then Some (zip_with app a b) else None.

Definition hstack3 (a b c : list (list float64)) : option (list (list float64)) :=
  match hstack2 a b with
  | Some ab => hstack2 ab c
  | None => None
  end.

(** [(data.T * factor).T]: row [i] is multiplied by [factor[i]]. *)
Definition scale_rows (factor : list float64) (data : list (list float64))
  : option (list (list float64)) :=
  match broadcast_to (length data) factor with
  | Some fs => Some (zip_with (fun f row => map (fun x => fmul x f) row) fs data)
  | None => None
  end.

(* ================================================================== *)
(** * Axes and signals *)

Inductive AxisKind : Type :=
| UniformDataAxis (offset scale : Q) (size : nat)
| DataAxis (axis : list Q)
| FunctionalDataAxis (expression : string) (axis : list Q).

Record Axis : Type := mkAxis {
  name : string;
  units : string;
  navigate : bool;
  kind_of : AxisKind
}.

(** [ax.axis]: the array of coordinates. *)
Definition uniform_values (offset scale : Q) (size : nat) : list Q :=
  map (fun i => offset + scale * inject_Z (Z.of_nat i)) (seq 0 size).

Definition axis_values (ax : Axis) : list Q :=
  match kind_of ax with
  | UniformDataAxis o s n => uniform_values o s n
  | DataAxis a => a
  | FunctionalDataAxis _ a => a
  end.

Definition is_uniform (ax : Axis) : bool :=
  match kind_of ax with
  | UniformDataAxis _ _ _ => true
  | _ => false
  end.

(** The number of samples, [len(ax.axis)]. *)
Definition axis_size (ax : Axis) : nat := length (axis_values ax).

Record Signal1D : Type := mkSignal {
  signal_axis : Axis;
  data : list (list float64);
  metadata : string
}.

(** The invariant of a spectrum: [data.shape[-1] == axis.size]. *)
Definition shape_ok (s : Signal1D) : Prop :=
  Forall (fun row => length row = axis_size (signal_axis s)) (data s).

Definition shape_okb (s : Signal1D) : bool :=
  forallb (fun row => Nat.eqb (length row) (axis_size (signal_axis s))) (data s).

(* ================================================================== *)
(** * Signal axis conversion *)

(** [scipy.constants]: Planck constant, speed of light, elementary charge. *)
Record Constants : Type := mkConstants {
  h : Q;
  c : Q;
  e : Q
}.

Definition CODATA2018 : Constants :=
  {| h := 6.62607015e-34; c := 299792458; e := 1.602176634e-19 |}.

Definition _n_air (wl : Q) : Q :=
  let wl := wl / 1000 in
  1 + 806051e-10 + 2480990e-8 / (132274e-3 - 1 / wl ^ 2)
    + 174557e-9 / (3932957e-5 - 1 / wl ^ 2).

Section Conversion.
Variable k : Constants.

Definition nm2eV (x : Q) : Q :=
  1e9 * h k * c k / (e k * _n_air x * x).

Definition eV2nm (x : Q) : Q :=
  let wl := 1239.5 / x in
  1e9 * h k * c k / (e k * _n_air wl * x).

Definition axis2eV (ax0 : Axis) : result (Axis * Q) :=
  if String.eqb (units ax0) "eV" then Raise (AttributeError "Signal unit is already eV.")
  else
    let '(evaxis, factor) :=
      if String.eqb (units ax0) "µm"
      then (rev (map nm2eV (map (Qmult 1000) (axis_values ax0))), 1e3)
      else (rev (map nm2eV (axis_values ax0)), 1e6) in
    Ok ({| name := "Energy"; units := "eV"; navigate := false;
           kind_of := DataAxis evaxis |}, factor).

Definition data2eV (data : list (list float64)) (factor : Q)
    (ax0 evaxis : list Q) : option (list (list float64)) :=
  match broadcast2 (fun n ev => e k * n * ev ^ 2) (map _n_air (rev ax0)) evaxis with
  | Some den =>
      mapM (fun row =>
              broadcast2 (fun d q =>
                            fdiv (fmul (fmul (fmul d (Num factor)) (Num (h k))) (Num (c k)))
                                 (Num q))
                         row den)
           data
  | None => None
  end.
End Conversion.

(** The axis [axis2eV] builds from the converted samples. *)
Definition energy_axis (evaxis : list Q) : Axis :=
  {| name := "Energy"; units := "eV"; navigate := false; kind_of := DataAxis evaxis |}.

(** The Jacobian factor applied to one sample. *)
Definition jacobian (k : Constants) (factor : Q) (d : float64) (wl ev : Q) : float64 :=
  fdiv (fmul (fmul (fmul d (Num factor)) (Num (h k))) (Num (c k)))
       (Num (e k * _n_air wl * ev ^ 2)).

(** [1 / wl**2] with [wl] in micrometres, as [_n_air] computes it. *)
Definition inv_sq (x : Q) : Q := 1 / (x / 1000) ^ 2.

(** What is assumed of the constants of [scipy.constants]: they are
    positive, and [1e9 * h * c / e] lies between 1239 and 1240 (it is
    1239.84... for every CODATA adjustment). *)
Definition positive_constants (k : Constants) : Prop :=
  0 < h k /\ 0 < c k /\ 0 < e k.

Definition hc_over_e_near (k : Constants) : Prop :=
  1239 * e k <= 1e9 * h k * c k /\ 1e9 * h k * c k <= 1240 * e k.

(** The range of validity of [_n_air], in nm (its docstring). *)
Definition valid_wavelength (x : Q) : Prop := 185 <= x /\ x <= 1700.

(** The samples of a wavelength axis in nm, as [axis2eV] reads them. *)
Definition wavelengths_nm (ax0 : Axis) : list Q :=
  if String.eqb (units ax0) "µm" then map (Qmult 1000) (axis_values ax0)
  else axis_values ax0.

(** Strictly ascending samples. *)
Definition ascending (l : list Q) : Prop :=
  forall i j x y, (i < j)%nat -> l !! i = Some x -> l !! j = Some y -> x < y.

(* ================================================================== *)
(** * Joining spectra: one step of the fold *)

Definition Qlt_bool (x y : Q) : bool := negb (Qle_bool y x).

(** [a.max()] and [a.min()]; NumPy raises on an empty array. *)
Definition np_max (l : list Q) : option Q :=
  match l with
  | [] => None
  | x :: l' => Some (fold_left Qmax l' x)
  end.

Definition np_min (l : list Q) : option Q :=
  match l with
  | [] => None
  | x :: l' => Some (fold_left Qmin l' x)
  end.

Definition set_kind (ax : Axis) (kd : AxisKind) : Axis :=
  {| name := name ax; units := units ax; navigate := navigate ax; kind_of := kd |}.

(** [axis.size = n] on a uniform axis; a non-positive size leaves no
    sample. *)
Definition set_size (ax : Axis) (n : Z) : Axis :=
  match kind_of ax with
  | UniformDataAxis o s _ => set_kind ax (UniformDataAxis o s (Z.to_nat n))
  | _ => ax
  end.

(** [axis.scale]. *)
Definition axis_scale (ax : Axis) : Q :=
  match kind_of ax with
  | UniformDataAxis _ s _ => s
  | _ => 1
  end.

(** [axis.convert_to_non_uniform_axis()], applied when the axis has an
    [expression]. *)
Definition convert_to_non_uniform_axis (ax : Axis) : Axis :=
  match kind_of ax with
  | FunctionalDataAxis _ a => set_kind ax (DataAxis a)
  | _ => ax
  end.

(** [axis.axis = a]. *)
Definition set_axis (ax : Axis) (a : list Q) : Axis := set_kind ax (DataAxis a).

Definition set_data (s : Signal1D) (d : list (list float64)) : Signal1D :=
  {| signal_axis := signal_axis s; data := d; metadata := metadata s |}.

Section Join.
(** hyperspy's [axis.value2index(v)]; [None] when it raises. *)
Variable value2index : Axis -> Q -> option Z.
(** scipy's [interpolate.interp1d(x, y, kind=kind)(x_new)] with [y] an
    array of rows; [None] when building or evaluating it raises. *)
Variable interp1d :
  string -> list Q -> list (list float64) -> list Q -> option (list (list float64)).

(** Lines 135-147: the seam indices and the test on [r]. *)
Definition seam (axis axis2 : Axis) (r : Z) : result (Z * Z) :=
  let* omax := orelse (np_max (axis_values axis)) LibraryError in
  let* omin := orelse (np_min (axis_values axis2)) LibraryError in
  let ocenter := (omax + omin) / 2 in
  let* ind1 := orelse (value2index axis ocenter) LibraryError in
  let* ind2 := orelse (value2index axis2 ocenter) LibraryError in
  let* a1 := orelse (py_index (axis_values axis) ind1) IndexError in
  let* b2 := orelse (py_index (axis_values axis2) ind2) IndexError in
  let ind2 := if Qlt_bool b2 a1 then (ind2 + 1)%Z else ind2 in
  let* imax := orelse (value2index axis omax) LibraryError in
  if (imax - ind1 <=? r)%Z then Raise (ValueError "`r` is too large")
  else Ok (ind1, ind2).

(** Lines 149-153: the scaling factor, one entry per navigation pixel. *)
Definition scaling_factor (S1 S2 : Signal1D) (ind1 ind2 r : Z)
  : result (list float64) :=
  let w2 := isig (Some (ind2 - r)%Z) (Some (ind2 + r)%Z) (data S2) in
  let init := map (map (fun _ => NaN)) w2 in
  let* q := orelse (np_divide (isig (Some (ind1 - r)%Z) (Some (ind1 + r)%Z) (data S1))
                              w2 init (map (map fnonzero) w2)) LibraryError in
  Ok (nanmean q).

(** Lines 158-173: both signals on the uniform grid of the first.  The
    quotient of line 159 is the exact rational one; float64 rounds the
    samples and the quotient before the floor, which can move the size by
    one when the quotient is a whole number. *)
Definition merge_uniform (S1 S2 : Signal1D) (ind1 ind2 r : Z)
    (average : bool) (kind : string) : result Signal1D :=
  let axis := signal_axis S1 in
  let axis2 := signal_axis S2 in
  let head := length (py_slice None (Some ind1) (axis_values axis)) in
  let* last2 := orelse (py_index (axis_values axis2) (-1)) IndexError in
  let* a1 := orelse (py_index (axis_values axis) ind1) IndexError in
  if Qeq_bool (axis_scale axis) 0 then Raise LibraryError
  else
    let axis :=
      set_size axis (Z.of_nat head + Qfloor ((last2 - a1) / axis_scale axis)) in
    if average then
      let* v := orelse (py_index (axis_values axis) (ind1 - r)) IndexError in
      let* ind2r := orelse (value2index axis2 v) LibraryError in
      let f := interp1d "slinear" (py_slice (Some ind2r) None (axis_values axis2))
                        (isig (Some ind2r) None (data S2)) in
      let* fm := orelse (f (py_slice (Some (ind1 - r + 1)%Z) (Some (ind1 + r)%Z)
                                     (axis_values axis))) LibraryError in
      let* mid := orelse (np_mean2 (isig (Some (ind1 - r + 1)%Z) (Some (ind1 + r)%Z)
                                         (data S1)) fm) LibraryError in
      let* tail := orelse (f (py_slice (Some (ind1 + r)%Z) None (axis_values axis)))
                          LibraryError in
      let* d := orelse (hstack3 (isig None (Some (ind1 - r + 1)%Z) (data S1)) mid tail)
                       LibraryError in
      Ok {| signal_axis := axis; data := d; metadata := metadata S1 |}
    else
      let f := interp1d "slinear" (py_slice (Some ind2) None (axis_values axis2))
                        (isig (Some ind2) None (data S2)) in
      let* tail := orelse (f (py_slice (Some (ind1 + 1)%Z) None (axis_values axis)))
                          LibraryError in
      let* d := orelse (hstack2 (isig None (Some (ind1 + 1)%Z) (data S1)) tail)
                       LibraryError in
      Ok {| signal_axis := axis; data := d; metadata := metadata S1 |}.

(** Lines 175-189: axes given by their samples. *)
Definition merge_nonuniform (S1 S2 : Signal1D) (ind1 ind2 r : Z)
    (average : bool) : result Signal1D :=
  let axis := convert_to_non_uniform_axis (signal_axis S1) in
  let axis2 := convert_to_non_uniform_axis (signal_axis S2) in
  let axis :=
    set_axis axis (py_slice None (Some ind1) (axis_values axis)
                     ++ py_slice (Some ind2) None (axis_values axis2)) in
  if average then
    let* mid := orelse (np_mean2 (isig (Some (ind1 - r)%Z) (Some (ind1 + r)%Z) (data S1))
                                 (isig (Some (ind2 - r)%Z) (Some (ind2 + r)%Z) (data S2)))
                       LibraryError in
    let* d := orelse (hstack3 (isig None (Some (ind1 - r)%Z) (data S1)) mid
                              (isig (Some (ind2 + r)%Z) None (data S2))) LibraryError in
    Ok {| signal_axis := axis; data := d; metadata := metadata S1 |}
  else
    let* d := orelse (hstack2 (isig None (Some ind1) (data S1))
                              (isig (Some ind2) None (data S2))) LibraryError in
    Ok {| signal_axis := axis; data := d; metadata := metadata S1 |}.

(** Line 157.  The hyperspy modelled is one whose [DataAxis] takes an
    [axis] argument ([axis2eV] builds one), so the test is
    [axis.is_uniform]. *)
Definition merge (S1 S2 : Signal1D) (ind1 ind2 r : Z)
    (average : bool) (kind : string) : result Signal1D :=
  if is_uniform (signal_axis S1)
  then merge_uniform S1 S2 ind1 ind2 r average kind
  else merge_nonuniform S1 S2 ind1 ind2 r average.

(** Line 154: [S2.data = (S2.data.T * factor).T]. *)
Definition scale_signal (S2 : Signal1D) (factor : list float64) : result Signal1D :=
  let* d := orelse (scale_rows factor (data S2)) LibraryError in
  Ok (set_data S2 d).

(** The body of the loop of lines 132-189 on the values of [S1] and of
    the copy [S2]: the new value of [S1]. *)
Definition join_step (S1 S2 : Signal1D) (r : Z) (average : bool) (kind : string)
  : result Signal1D :=
  let* (ind1, ind2) := seam (signal_axis S1) (signal_axis S2) r in
  let* factor := scaling_factor S1 S2 ind1 ind2 r in
  let* S2 := scale_signal S2 factor in
  merge S1 S2 ind1 ind2 r average kind.

(** The fold of [join_step] over the spectra that follow the first. *)
Fixpoint join_fold (S1 : Signal1D) (rest : list Signal1D) (r : Z)
    (average : bool) (kind : string) : result Signal1D :=
  match rest with
  | [] => Ok S1
  | s :: rest' =>
      let* S1 := join_step S1 s r average kind in
      join_fold S1 rest' r average kind
  end.
End Join.

(* ================================================================== *)
(** * Joining spectra: the signals as objects *)

(** Signals are objects: the list [S] holds references, [deepcopy]
    allocates a new object and the assignments to [S1.data], [S2.data]
    and the axes update an object in place.  The store is a list of
    objects, a reference is a position in it. *)
Abbreviation loc := nat (only parsing).
Abbreviation heap := (list Signal1D) (only parsing).
Definition M (A : Type) : Type := heap -> heap * result A.

Definition ret {A} (a : A) : M A := fun hp => (hp, Ok a).
Definition raise {A} (x : exn) : M A := fun hp => (hp, Raise x).
Definition bind {A B} (m : M A) (f : A -> M B) : M B :=
  fun hp =>
    match m hp with
    | (hp', Ok a) => f a hp'
    | (hp', Raise x) => (hp', Raise x)
    end.
Definition lift {A} (v : result A) : M A := fun hp => (hp, v).

Notation "'let!' x ':=' m 'in' f" := (bind m (fun x => f))
  (at level 10, x pattern, m at level 100, f at level 200).

(** Reading an object; a reference always denotes one. *)
Definition get (l : loc) : M Signal1D :=
  fun hp => (hp, orelse (hp !! l) LibraryError).

(** Overwriting the attributes of an object. *)
Definition put (l : loc) (s : Signal1D) : M unit :=
  fun hp => (<[l := s]> hp, Ok tt).

(** [s.deepcopy()]. *)
Definition deepcopy (l : loc) : M loc :=
  fun hp =>
    match hp !! l with
    | Some s => (hp ++ [s], Ok (length hp))
    | None => (hp, Raise LibraryError)
    end.

Section JoinSpectra.
Variable value2index : Axis -> Q -> option Z.
Variable interp1d :
  string -> list Q -> list (list float64) -> list Q -> option (list (list float64)).

(** Lines 124-127, from [S[i-1]] = [prev] on. *)
Fixpoint check_overlap (prev : loc) (rest : list loc) : M unit :=
  match rest with
  | [] => ret tt
  | cur :: rest' =>
      let! a := get prev in
      let! b := get cur in
      let! amax := lift (orelse (np_max (axis_values (signal_axis a))) LibraryError) in
      let! bmin := lift (orelse (np_min (axis_values (signal_axis b))) LibraryError) in
      if Qlt_bool amax bmin then raise (ValueError "Signal axes not overlapping")
      else check_overlap cur rest'
  end.

(** Lines 133-189 for one following spectrum, [S2] being its copy. *)
Definition join_pair (S1 S2 : loc) (r : Z) (average : bool) (kind : string)
  : M unit :=
  let! a := get S1 in
  let! b := get S2 in
  let! (ind1, ind2) := lift (seam value2index (signal_axis a) (signal_axis b) r) in
  let! factor := lift (scaling_factor a b ind1 ind2 r) in
  let! b' := lift (scale_signal b factor) in
  let! _ := put S2 b' in
  let! b := get S2 in
  let! a' := lift (merge value2index interp1d a b ind1 ind2 r average kind) in
  put S1 a'.

Fixpoint join_rest (S1 : loc) (rest : list loc) (r : Z) (average : bool)
    (kind : string) : M unit :=
  match rest with
  | [] => ret tt
  | Si :: rest' =>
      let! S2 := deepcopy Si in
      let! _ := join_pair S1 S2 r average kind in
      join_rest S1 rest' r average kind
  end.

Definition join_spectra (S : list loc) (r : Z) (average : bool) (kind : string)
  : M loc :=
  match S with
  | [] => raise IndexError
  | s0 :: rest =>
      let! _ := check_overlap s0 rest in
      let! S1 := deepcopy s0 in
      let! _ := join_rest S1 rest r average kind in
      ret S1
  end.
End JoinSpectra.

(** The value [join_spectra] computes, on the values of the signals that
    [S] refers to: the test of lines 124-127 and the fold. *)
Fixpoint overlap_checks (prev : Signal1D) (rest : list Signal1D) : result unit :=
  match rest with
  | [] => Ok tt
  | cur :: rest' =>
      let* amax := orelse (np_max (axis_values (signal_axis prev))) LibraryError in
      let* bmin := orelse (np_min (axis_values (signal_axis cur))) LibraryError in
      if Qlt_bool amax bmin then Raise (ValueError "Signal axes not overlapping")
      else overlap_checks cur rest'
  end.

Section JoinValue.
Variable value2index : Axis -> Q -> option Z.
Variable interp1d :
  string -> list Q -> list (list float64) -> list Q -> option (list (list float64)).

Definition join_value (vals : list Signal1D) (r : Z) (average : bool) (kind : string)
  : result Signal1D :=
  match vals with
  | [] => Raise IndexError
  | s0 :: rest =>
      let* _ := overlap_checks s0 rest in
      join_fold value2index interp1d s0 rest r average kind
  end.
End JoinValue.

(** The exceptions raised below the test on [r]. *)
Definition library_exn (x : exn) : Prop := x = LibraryError \/ x = IndexError.

(** A signal whose axis has at least one sample. *)
Definition has_samples (s : Signal1D) : Prop := axis_values (signal_axis s) <> [].

(** The outcome of a command run for its effect. *)
Definition forget {A} (v : result A) : result unit :=
  match v with
  | Ok _ => Ok tt
  | Raise x => Raise x
  end.

(** [S] refers, in the store [hp], to the signals [vals]. *)
Definition refers (hp : heap) (S : list loc) (vals : list Signal1D) : Prop :=
  Forall2 (fun l s => hp !! l = Some s) S vals.

(** The pair [a], [b] of adjacent spectra fails the overlap test. *)
Definition disjoint_axes (a b : Signal1D) : Prop :=
  exists amax bmin,
    np_max (axis_values (signal_axis a)) = Some amax /\
    np_min (axis_values (signal_axis b)) = Some bmin /\
    amax < bmin.

(** The documented behaviour of the [kind] argument ("Interpolation
    method ... to use when joining signals with a uniform signal axes"):
    the step run with an interpolator that uses the method [kind] it is
    called with.  It serves to state what the argument is documented to
    do. *)
Section Documented.
Variable value2index : Axis -> Q -> option Z.
Variable interp1d :
  string -> list Q -> list (list float64) -> list Q -> option (list (list float64)).

Definition join_step_documented (S1 S2 : Signal1D) (r : Z) (average : bool)
    (kind : string) : result Signal1D :=
  join_step value2index (fun _ => interp1d kind) S1 S2 r average kind.
End Documented.

(** The scaling factor in the words of the specification: the ratio of
    the two windows sample by sample, undefined (NaN) where the sample of
    the second window is exactly zero, then the NaN-ignoring mean along
    the signal axis; the data of the second spectrum is multiplied, pixel
    by pixel, by that factor. *)
Definition exactly_zero (x : float64) : bool :=
  match x with
  | Num q => Qeq_bool q 0
  | NaN => false
  end.

Definition ratio_or_nan (a b : float64) : float64 :=
  if exactly_zero b then NaN else fdiv a b.

Definition spec_factor (wa wb : list (list float64)) : list float64 :=
  map nanmean_row (zip_with (zip_with ratio_or_nan) wa wb).


(** NumPy's broadcasting of the first window onto the shape of the
    second; windows of one shape are left as they are. *)
Definition broadcast_window (wa wb : list (list float64))
  : option (list (list float64)) :=
  match broadcast_to (length wb) wa with
  | Some wa' => mapM (fun '(x, y) => broadcast_to (length y) x) (zip wa' wb)
  | None => None
  end.

Definition same_shape (wa wb : list (list float64)) : Prop :=
  Forall2 (fun x y => length x = length y) wa wb.

Section SpecStep.
Variable value2index : Axis -> Q -> option Z.
Variable interp1d :
  string -> list Q -> list (list float64) -> list Q -> option (list (list float64)).

End SpecStep.

(* ================================================================== *)
(** * Reference collaborators *)

(** Modelled from the spec: hyperspy's [value2index] is not part of the
    module; the spec describes it as the lookup of the nearest sample
    index.  The first nearest sample is taken, as [argmin] does. *)
Fixpoint argmin_from (v : Q) (i : nat) (best : nat) (dbest : Q) (l : list Q) : nat :=
  match l with
  | [] => best
  | x :: l' =>
      if Qlt_bool (Qabs (x - v)) dbest
      then argmin_from v (S i) i (Qabs (x - v)) l'
      else argmin_from v (S i) best dbest l'
  end.

Definition value2index_nearest (ax : Axis) (v : Q) : option Z :=
  match axis_values ax with
  | [] => None
  | x :: l => Some (Z.of_nat (argmin_from v 1 0 (Qabs (x - v)) l))
  end.

Definition fsub (x y : float64) : float64 :=
  match x, y with
  | Num a, Num b => Num (a - b)
  | _, _ => NaN
  end.

(** Modelled from the spec: scipy's [interp1d] is not part of the module;
    the spec describes it as an interpolator from sample pairs and target
    coordinates to values.  Supported here: the piecewise linear kinds
    (['slinear'], ['linear']) and the step kinds ['previous'] and ['next'],
    on ascending [x] with at least two samples; a target outside the
    sampled range raises. *)
Definition segment (kind : string) (x0 x1 : Q) (y0 y1 : float64) (v : Q) : float64 :=
  if String.eqb kind "previous" then (if Qeq_bool v x1 then y1 else y0)
  else if String.eqb kind "next" then (if Qeq_bool v x0 then y0 else y1)
  else if Qeq_bool v x0 then y0
  else if Qeq_bool v x1 then y1
  else fadd y0 (fmul (fsub y1 y0) (Num ((v - x0) / (x1 - x0)))).

Fixpoint interp_at (kind : string) (x : list Q) (y : list float64) (v : Q)
  : option float64 :=
  match x, y with
  | x0 :: ((x1 :: _) as x'), y0 :: ((y1 :: _) as y') =>
      if Qle_bool x0 v && Qle_bool v x1 then Some (segment kind x0 x1 y0 y1 v)
      else interp_at kind x' y' v
  | _, _ => None
  end.

Definition supported_kind (kind : string) : bool :=
  String.eqb kind "slinear" || String.eqb kind "linear"
  || String.eqb kind "previous" || String.eqb kind "next".

Definition interp1d_ref (kind : string) (x : list Q) (y : list (list float64))
    (x_new : list Q) : option (list (list float64)) :=
  if supported_kind kind && Nat.leb 2 (length x)
     && forallb (fun row => Nat.eqb (length row) (length x)) y
  then mapM (fun row => mapM (interp_at kind x row) x_new) y
  else None.

(** The sample [a] is [f] times the sample [b], a number other than
    zero: what a gain [f] between two recordings of one spectrum gives. *)
Definition gain_related (f : Q) (a b : float64) : Prop :=
  exists p q, a = Num p /\ b = Num q /\ ~ q == 0 /\ p == f * q.

(** What a step keeps of the accumulator. *)
Definition same_attributes (s out : Signal1D) : Prop :=
  metadata out = metadata s /\
  name (signal_axis out) = name (signal_axis s) /\
  units (signal_axis out) = units (signal_axis s) /\
  navigate (signal_axis out) = navigate (signal_axis s).

(** Sample [i] of navigation pixel [j] of a computed signal. *)
Definition sample (v : result Signal1D) (j i : nat) : option float64 :=
  match v with
  | Ok s => match data s !! j with
            | Some row => row !! i
            | None => None
            end
  | Raise _ => None
  end.

(** Signals used in the examples. *)
Definition uniform_axis (offset scale : Q) (size : nat) : Axis :=
  {| name := "Wavelength"; units := "nm"; navigate := false;
     kind_of := UniformDataAxis offset scale size |}.

Definition sample_axis (a : list Q) : Axis :=
  {| name := "Wavelength"; units := "nm"; navigate := false; kind_of := DataAxis a |}.

Definition constant_signal (ax : Axis) (v : Q) : Signal1D :=
  {| signal_axis := ax; data := [replicate (axis_size ax) (Num v)]; metadata := "" |}.

(** A spectrum whose intensity is its coordinate. *)
Definition ramp_signal (ax : Axis) : Signal1D :=
  {| signal_axis := ax; data := [map Num (axis_values ax)]; metadata := "" |}.

(* ================================================================== *)
(** * Properties of the array helpers *)

Lemma mapM_length {A B} (f : A -> option B) (l : list A) (out : list B) :
  mapM f l = Some out -> length out = length l.
Proof.
  revert out. induction l as [|x l IH]; intros out; simpl.
  - intros [= <-]. reflexivity.
  - destruct (f x); [|discriminate].
    destruct (mapM f l) as [ys|]; [|discriminate].
    intros [= <-]. simpl. f_equal. apply IH. reflexivity.
Qed.

Lemma mapM_lookup {A B} (f : A -> option B) (l : list A) (out : list B) (i : nat) (x : A) :
  mapM f l = Some out -> l !! i = Some x ->
  exists y, out !! i = Some y /\ f x = Some y.
Proof.
  revert out i. induction l as [|a l IH]; intros out i; simpl.
  - intros _ H. discriminate H.
  - destruct (f a) as [b|] eqn:Hfa; [|discriminate].
    destruct (mapM f l) as [ys|] eqn:Hm; [|discriminate].
    intros [= <-]. destruct i as [|i]; simpl.
    + intros [= ->]. exists b. split; [reflexivity|assumption].
    + intros Hi. apply (IH ys i eq_refl Hi).
Qed.

Lemma mapM_total {A B} (f : A -> option B) (l : list A) :
  Forall (fun x => exists y, f x = Some y) l -> exists out, mapM f l = Some out.
Proof.
  induction 1 as [|x l [y Hy] _ [ys Hys]]; simpl.
  - exists []. reflexivity.
  - rewrite Hy, Hys. exists (y :: ys). reflexivity.
Qed.

Lemma broadcast2_same_length {A B C} (f : A -> B -> C) (l1 : list A) (l2 : list B) :
  length l1 = length l2 -> broadcast2 f l1 l2 = Some (zip_with f l1 l2).
Proof.
  intros H. unfold broadcast2. rewrite H, Nat.eqb_refl. reflexivity.
Qed.

Lemma broadcast_to_same_length {A} (n : nat) (l : list A) :
  length l = n -> broadcast_to n l = Some l.
Proof.
  intros H. unfold broadcast_to. rewrite H, Nat.eqb_refl. reflexivity.
Qed.

(* ================================================================== *)
(** * Signal axis conversion: units and the Jacobian *)

(** C7.  [axis2eV] raises, and then the unit error, exactly when the unit
    of the axis is ['eV'].  For the unit ['µm'] the samples are multiplied
    by 1000 before the conversion and the intensity factor is 1e3; for any
    other unit the samples are converted as they are and the factor is
    1e6.  The result is the converted samples in reversed order. *)
Theorem axis2eV_units (k : Constants) (ax0 : Axis) :
  (axis2eV k ax0 = Raise UnitError <-> units ax0 = "eV"%string) /\
  ((exists x, axis2eV k ax0 = Raise x) <-> units ax0 = "eV"%string) /\
  (units ax0 = "µm"%string ->
   axis2eV k ax0
   = Ok (energy_axis (rev (map (nm2eV k) (map (Qmult 1000) (axis_values ax0)))), 1e3)) /\
  (units ax0 <> "eV"%string -> units ax0 <> "µm"%string ->
   axis2eV k ax0 = Ok (energy_axis (rev (map (nm2eV k) (axis_values ax0))), 1e6)).
Proof.
  unfold axis2eV, UnitError, energy_axis.
  destruct (String.eqb_spec (units ax0) "eV") as [HeV|HeV].
  - repeat split; try tauto.
    + eexists; reflexivity.
    + intros Hum. rewrite Hum in HeV. discriminate HeV.
  - destruct (String.eqb_spec (units ax0) "µm") as [Hum|Hum].
    + repeat split; try tauto; try discriminate.
      intros [x Hx]. discriminate Hx.
    + repeat split; try tauto; try discriminate.
      intros [x Hx]. discriminate Hx.
Qed.

Lemma axis2eV_units_witness :
  axis2eV CODATA2018 (mkAxis "Wavelength" "µm" false (DataAxis [0.5; 0.6]))
  = Ok (energy_axis (rev (map (nm2eV CODATA2018) (map (Qmult 1000) [0.5; 0.6]))), 1e3)
  /\ axis2eV CODATA2018 (mkAxis "Wavelength" "nm" false (DataAxis [500; 600]))
     = Ok (energy_axis (rev (map (nm2eV CODATA2018) [500; 600])), 1e6).
Proof.
  split.
  - apply (axis2eV_units CODATA2018 (mkAxis "Wavelength" "µm" false (DataAxis [0.5; 0.6]))).
    reflexivity.
  - apply (axis2eV_units CODATA2018 (mkAxis "Wavelength" "nm" false (DataAxis [500; 600])));
      simpl; discriminate.
Defined.

Lemma rev_lookup_mirror {A} (l : list A) (i : nat) (x : A) :
  (i < length l)%nat -> l !! (length l - 1 - i)%nat = Some x -> rev l !! i = Some x.
Proof.
  intros Hi Hx.
  rewrite <- Hx. replace (length l - 1 - i)%nat with (length l - S i)%nat by lia.
  rewrite <- (reverse_lookup l i Hi). unfold reverse.
  rewrite rev_append_rev, app_nil_r. reflexivity.
Qed.

(** C9.  On a data array whose rows have the length of the two axes,
    [data2eV] returns an array of the same shape whose sample [i] of every
    row is the input sample [i] times
    [factor * h * c / (e * n_air(wl) * ev^2)], with [ev] sample [i] of the
    energy axis and [wl] sample [i] of the reversed wavelength axis, that
    is sample [n - 1 - i] of the wavelength axis as given.  For the energy
    axis that [axis2eV] computes, these are the same physical sample:
    [ev] is [nm2eV wl]. *)
Theorem data2eV_pointwise (k : Constants) (data : list (list float64)) (factor : Q)
    (ax0 evaxis : list Q) :
  length ax0 = length evaxis ->
  Forall (fun row => length row = length evaxis) data ->
  exists out,
    data2eV k data factor ax0 evaxis = Some out /\
    length out = length data /\
    (forall j i row d,
        data !! j = Some row -> row !! i = Some d ->
        exists wl ev orow,
          ax0 !! (length ax0 - 1 - i)%nat = Some wl /\
          rev ax0 !! i = Some wl /\
          evaxis !! i = Some ev /\
          rev (map (nm2eV k) ax0) !! i = Some (nm2eV k wl) /\
          out !! j = Some orow /\
          orow !! i = Some (jacobian k factor d wl ev)).
Proof.
  intros Hlen Hrows. unfold data2eV.
  rewrite broadcast2_same_length by (rewrite length_map, length_rev; exact Hlen).
  set (den := zip_with (fun n ev => e k * n * ev ^ 2) (map _n_air (rev ax0)) evaxis).
  assert (Hden : length den = length evaxis).
  { unfold den. rewrite length_zip_with, length_map, length_rev. lia. }
  set (g := fun row : list float64 =>
              broadcast2 (fun d q =>
                            fdiv (fmul (fmul (fmul d (Num factor)) (Num (h k))) (Num (c k)))
                                 (Num q)) row den).
  destruct (mapM_total g data) as [out Hout].
  { eapply Forall_impl; [exact Hrows|]. intros row Hrow. simpl in Hrow. unfold g.
    rewrite broadcast2_same_length by (rewrite Hden; exact Hrow).
    eexists; reflexivity. }
  exists out. split; [exact Hout|]. split; [eapply mapM_length; exact Hout|].
  intros j i row d Hj Hi.
  assert (Hrow : length row = length evaxis).
  { rewrite Forall_forall in Hrows. apply Hrows.
    eapply list_elem_of_lookup_2. exact Hj. }
  assert (Hilt : (i < length row)%nat) by (eapply lookup_lt_Some; exact Hi).
  destruct (lookup_lt_is_Some_2 ax0 (length ax0 - 1 - i)%nat) as [wl Hwl]; [lia|].
  destruct (lookup_lt_is_Some_2 evaxis i) as [ev Hev]; [lia|].
  destruct (mapM_lookup g data out j row Hout Hj) as [orow [Horow Hg]].
  assert (Hrev : rev ax0 !! i = Some wl) by (apply rev_lookup_mirror; [lia|exact Hwl]).
  exists wl, ev, orow. repeat split; try assumption.
  - apply rev_lookup_mirror; rewrite length_map; [lia|].
    rewrite list_lookup_fmap, Hwl. reflexivity.
  - unfold g in Hg. rewrite broadcast2_same_length in Hg by lia.
    injection Hg as <-. rewrite lookup_zip_with, Hi. simpl.
    unfold den. rewrite lookup_zip_with, list_lookup_fmap, Hrev. simpl.
    rewrite Hev. reflexivity.
Qed.

Lemma data2eV_pointwise_witness :
  exists out,
    data2eV CODATA2018 [[Num 1; Num 2]] 1e6 [500; 600]
            (rev (map (nm2eV CODATA2018) [500; 600])) = Some out /\
    length out = 1%nat.
Proof.
  destruct (data2eV_pointwise CODATA2018 [[Num 1; Num 2]] 1e6 [500; 600]
              (rev (map (nm2eV CODATA2018) [500; 600]))) as [out [H1 [H2 _]]].
  - reflexivity.
  - repeat constructor.
  - exists out. split; [exact H1|exact H2].
Defined.

(* ================================================================== *)
(** * The exceptions of a join step *)

Lemma orelse_raise {A} (o : option A) (x y : exn) :
  orelse o x = Raise y -> y = x.
Proof. destruct o; simpl; [discriminate|]. intros [= <-]. reflexivity. Qed.

Ltac orelse_cases H :=
  repeat match type of H with
    | rbind (orelse ?o ?x) _ = Raise _ =>
        let E := fresh "E" in
        destruct o eqn:E; simpl in H;
        [ | injection H as <-; unfold library_exn; auto ]
    | (let* _ := orelse ?o ?x in _) = Raise _ =>
        let E := fresh "E" in
        destruct o eqn:E; simpl in H;
        [ | injection H as <-; unfold library_exn; auto ]
    | (if ?b then _ else _) = Raise _ =>
        let E := fresh "E" in destruct b eqn:E
    | Raise _ = Raise _ => injection H as <-; unfold library_exn; auto
    | Ok _ = Raise _ => discriminate H
    end.

Section StepExceptions.
Variable value2index : Axis -> Q -> option Z.
Variable interp1d :
  string -> list Q -> list (list float64) -> list Q -> option (list (list float64)).

Lemma scaling_factor_raise S1 S2 ind1 ind2 r x :
  scaling_factor S1 S2 ind1 ind2 r = Raise x -> library_exn x.
Proof. unfold scaling_factor. intros H. orelse_cases H. Qed.

Lemma scale_signal_raise S2 factor x :
  scale_signal S2 factor = Raise x -> library_exn x.
Proof. unfold scale_signal. intros H. orelse_cases H. Qed.

Lemma merge_uniform_raise S1 S2 ind1 ind2 r average kind x :
  merge_uniform value2index interp1d S1 S2 ind1 ind2 r average kind = Raise x ->
  library_exn x.
Proof. unfold merge_uniform. intros H. orelse_cases H. Qed.

Lemma merge_nonuniform_raise S1 S2 ind1 ind2 r average x :
  merge_nonuniform S1 S2 ind1 ind2 r average = Raise x -> library_exn x.
Proof. unfold merge_nonuniform. intros H. orelse_cases H. Qed.

Lemma merge_raise S1 S2 ind1 ind2 r average kind x :
  merge value2index interp1d S1 S2 ind1 ind2 r average kind = Raise x ->
  library_exn x.
Proof.
  unfold merge. destruct (is_uniform (signal_axis S1)).
  - apply merge_uniform_raise.
  - apply merge_nonuniform_raise.
Qed.

Lemma seam_raise axis axis2 r x :
  seam value2index axis axis2 r = Raise x -> library_exn x \/ x = RangeError.
Proof.
  unfold seam. intros H. orelse_cases H.
Qed.

(** After the seam, a step raises library exceptions only. *)
Lemma join_step_after_seam S1 S2 r average kind ind1 ind2 x :
  seam value2index (signal_axis S1) (signal_axis S2) r = Ok (ind1, ind2) ->
  join_step value2index interp1d S1 S2 r average kind = Raise x ->
  library_exn x.
Proof.
  unfold join_step. intros -> H. simpl in H.
  destruct (scaling_factor S1 S2 ind1 ind2 r) as [factor|y] eqn:Hf; simpl in H.
  - destruct (scale_signal S2 factor) as [S2'|y] eqn:Hs; simpl in H.
    + eapply merge_raise. exact H.
    + injection H as <-. eapply scale_signal_raise. exact Hs.
  - injection H as <-. eapply scaling_factor_raise. exact Hf.
Qed.

Lemma join_step_raise S1 S2 r average kind x :
  join_step value2index interp1d S1 S2 r average kind = Raise x ->
  library_exn x \/ x = RangeError.
Proof.
  intros H.
  destruct (seam value2index (signal_axis S1) (signal_axis S2) r) as [[ind1 ind2]|y] eqn:Hs.
  - left. eapply join_step_after_seam; eassumption.
  - unfold join_step in H. rewrite Hs in H. simpl in H. injection H as <-.
    eapply seam_raise. exact Hs.
Qed.

Lemma join_fold_raise rest S1 r average kind x :
  join_fold value2index interp1d S1 rest r average kind = Raise x ->
  library_exn x \/ x = RangeError.
Proof.
  revert S1. induction rest as [|s rest IH]; intros S1; simpl.
  - discriminate.
  - destruct (join_step value2index interp1d S1 s r average kind) as [S1'|y] eqn:Hs; simpl.
    + apply IH.
    + intros [= <-]. eapply join_step_raise. exact Hs.
Qed.
End StepExceptions.

Lemma library_exn_not_overlap x : library_exn x \/ x = RangeError -> x <> OverlapError.
Proof. intros [[-> | ->] | ->]; discriminate. Qed.

(* ================================================================== *)
(** * [join_spectra] on the store and on values *)

Section Run.
Variable value2index : Axis -> Q -> option Z.
Variable interp1d :
  string -> list Q -> list (list float64) -> list Q -> option (list (list float64)).

Lemma check_overlap_run rest : forall prev a vals hp,
  hp !! prev = Some a -> refers hp rest vals ->
  check_overlap prev rest hp = (hp, overlap_checks a vals).
Proof.
  induction rest as [|cur rest IH]; intros prev a vals hp Ha Hr.
  - inversion Hr; subst. reflexivity.
  - inversion Hr as [|? b ? vals' Hb Hr']; subst. simpl.
    unfold bind, get, lift. rewrite Ha, Hb. simpl.
    destruct (np_max (axis_values (signal_axis a))) as [amax|]; simpl; [|reflexivity].
    destruct (np_min (axis_values (signal_axis b))) as [bmin|]; simpl; [|reflexivity].
    destruct (Qlt_bool amax bmin); [reflexivity|].
    apply IH; assumption.
Qed.

Lemma join_pair_run S1 S2 r average kind hp a b :
  hp !! S1 = Some a -> hp !! S2 = Some b -> S1 <> S2 ->
  exists hp',
    join_pair value2index interp1d S1 S2 r average kind hp
    = (hp', forget (join_step value2index interp1d a b r average kind)) /\
    length hp' = length hp /\
    (forall l, l <> S1 -> l <> S2 -> hp' !! l = hp !! l) /\
    (forall a', join_step value2index interp1d a b r average kind = Ok a' ->
                hp' !! S1 = Some a').
Proof.
  intros Ha Hb Hne. unfold join_pair, join_step, bind, get, lift, put.
  rewrite Ha, Hb. cbn [orelse forget rbind].
  destruct (seam value2index (signal_axis a) (signal_axis b) r) as [[ind1 ind2]|x]; cbn [orelse forget rbind].
  2:{ exists hp. split; [reflexivity|]. split; [reflexivity|].
      split; [reflexivity|discriminate]. }
  destruct (scaling_factor a b ind1 ind2 r) as [factor|x]; cbn [orelse forget rbind].
  2:{ exists hp. split; [reflexivity|]. split; [reflexivity|].
      split; [reflexivity|discriminate]. }
  destruct (scale_signal b factor) as [b'|x]; cbn [orelse forget rbind].
  2:{ exists hp. split; [reflexivity|]. split; [reflexivity|].
      split; [reflexivity|discriminate]. }
  assert (HS2 : (S2 < length hp)%nat) by (eapply lookup_lt_Some; exact Hb).
  assert (HS1 : (S1 < length hp)%nat) by (eapply lookup_lt_Some; exact Ha).
  rewrite list_lookup_insert_eq by exact HS2. cbn [orelse forget rbind].
  destruct (merge value2index interp1d a b' ind1 ind2 r average kind) as [a'|x]; cbn [orelse forget rbind].
  - exists (<[S1 := a']> (<[S2 := b']> hp)).
    split; [reflexivity|]. split; [|split].
    + rewrite !length_insert. reflexivity.
    + intros l H1 H2. rewrite !list_lookup_insert_ne by congruence. reflexivity.
    + intros a'' [= <-]. apply list_lookup_insert_eq. rewrite length_insert. exact HS1.
  - exists (<[S2 := b']> hp).
    split; [reflexivity|]. split; [|split].
    + rewrite length_insert. reflexivity.
    + intros l H1 H2. rewrite list_lookup_insert_ne by congruence. reflexivity.
    + discriminate.
Qed.

Lemma join_rest_run r average kind rest : forall vals hp S1 a base,
  hp !! S1 = Some a -> (base <= S1)%nat ->
  refers hp rest vals -> Forall (fun l => (l < base)%nat) rest ->
  exists hp',
    join_rest value2index interp1d S1 rest r average kind hp
    = (hp', forget (join_fold value2index interp1d a vals r average kind)) /\
    (length hp <= length hp')%nat /\
    (forall l, (l < base)%nat -> hp' !! l = hp !! l) /\
    (forall v, join_fold value2index interp1d a vals r average kind = Ok v ->
               hp' !! S1 = Some v).
Proof.
  induction rest as [|Si rest IH]; intros vals hp S1 a base Ha Hbase Hr Hlt.
  - inversion Hr; subst. simpl. exists hp.
    split; [reflexivity|]. split; [lia|]. split; [reflexivity|].
    intros v [= <-]. exact Ha.
  - inversion Hr as [|? b ? vals' Hb Hr']; subst.
    inversion Hlt as [|? ? HSi Hlt']; subst.
    assert (HS1 : (S1 < length hp)%nat) by (eapply lookup_lt_Some; exact Ha).
    cbn [join_rest join_fold]. unfold bind at 1, deepcopy. rewrite Hb.
    destruct (join_pair_run S1 (length hp) r average kind (hp ++ [b]) a b)
      as [hp2 [Hrun [Hlen [Hkeep Hnew]]]].
    { rewrite lookup_app_l by exact HS1. exact Ha. }
    { rewrite lookup_app_r by lia. rewrite Nat.sub_diag. reflexivity. }
    { lia. }
    unfold bind at 1. rewrite Hrun.
    assert (Hold : forall l, (l < base)%nat -> hp2 !! l = hp !! l).
    { intros l Hl. rewrite Hkeep by lia. apply lookup_app_l. lia. }
    rewrite length_app in Hlen. simpl in Hlen.
    destruct (join_step value2index interp1d a b r average kind) as [a'|x] eqn:Hstep;
      cbn [forget rbind].
    + destruct (IH vals' hp2 S1 a' base) as [hp3 [Hrun3 [Hlen3 [Hkeep3 Hnew3]]]].
      * apply Hnew. reflexivity.
      * exact Hbase.
      * unfold refers in *. clear - Hr' Hlt' Hold.
        induction Hr' as [|l s ls ss Hl _ IHr]; constructor.
        -- inversion Hlt'; subst. rewrite Hold by assumption. exact Hl.
        -- apply IHr. inversion Hlt'; subst. assumption.
      * exact Hlt'.
      * exists hp3. split; [exact Hrun3|]. split; [lia|]. split; [|exact Hnew3].
        intros l Hl. rewrite Hkeep3 by exact Hl. apply Hold. exact Hl.
    + exists hp2. split; [reflexivity|]. split; [lia|]. split; [exact Hold|].
      discriminate.
Qed.

(** [join_spectra] on a store computes [join_value] of the signals it is
    given, returns it as a new object, and leaves every object of the
    initial store as it was; when the overlap test fails, the store is
    not touched at all. *)
Lemma join_spectra_run S vals r average kind hp :
  refers hp S vals ->
  exists hp' res,
    join_spectra value2index interp1d S r average kind hp = (hp', res) /\
    (forall l, (l < length hp)%nat -> hp' !! l = hp !! l) /\
    match join_value value2index interp1d vals r average kind with
    | Ok v => res = Ok (length hp) /\ hp' !! length hp = Some v
    | Raise x => res = Raise x
    end /\
    (forall s0 rest x, vals = s0 :: rest -> overlap_checks s0 rest = Raise x -> hp' = hp).
Proof.
  intros Hr. destruct Hr as [|s0 a S' rest Ha Hr].
  - exists hp, (Raise IndexError). split; [reflexivity|]. split; [reflexivity|].
    split; [reflexivity|]. discriminate.
  - assert (Hs0 : (s0 < length hp)%nat) by (eapply lookup_lt_Some; exact Ha).
    assert (Hlt : Forall (fun l => (l < length hp)%nat) S').
    { clear - Hr. induction Hr as [|l s ls ss Hl _ IHr]; constructor.
      - eapply lookup_lt_Some; exact Hl.
      - exact IHr. }
    cbn [join_spectra join_value]. unfold bind at 1.
    rewrite (check_overlap_run S' s0 a rest hp Ha Hr).
    destruct (overlap_checks a rest) as [[]|x] eqn:Hchk; cbn [rbind].
    + unfold bind at 1, deepcopy. rewrite Ha.
      destruct (join_rest_run r average kind S' rest (hp ++ [a]) (length hp) a (length hp))
        as [hp2 [Hrun [Hlen [Hkeep Hnew]]]].
      * rewrite lookup_app_r by lia. rewrite Nat.sub_diag. reflexivity.
      * lia.
      * unfold refers in *. clear - Hr Hlt.
        induction Hr as [|l s ls ss Hl _ IHr]; constructor.
        -- inversion Hlt; subst. rewrite lookup_app_l by assumption. exact Hl.
        -- apply IHr. inversion Hlt; subst. assumption.
      * exact Hlt.
      * unfold bind at 1. rewrite Hrun.
        assert (Hold : forall l, (l < length hp)%nat -> hp2 !! l = hp !! l).
        { intros l Hl. rewrite Hkeep by exact Hl. apply lookup_app_l. exact Hl. }
        destruct (join_fold value2index interp1d a rest r average kind) as [v|x] eqn:Hf;
          cbn [forget].
        -- exists hp2, (Ok (length hp)). split; [reflexivity|]. split; [exact Hold|].
           split; [split; [reflexivity|apply Hnew; reflexivity]|].
           intros ? ? x [= <- <-] Hx. rewrite Hchk in Hx. discriminate Hx.
        -- exists hp2, (Raise x). split; [reflexivity|]. split; [exact Hold|].
           split; [reflexivity|].
           intros ? ? y [= <- <-] Hy. rewrite Hchk in Hy. discriminate Hy.
    + exists hp, (Raise x). split; [reflexivity|]. split; [reflexivity|].
      split; [reflexivity|]. intros; reflexivity.
Qed.
End Run.

(* ================================================================== *)
(** * The overlap test *)

Lemma Qlt_bool_iff (x y : Q) : Qlt_bool x y = true <-> x < y.
Proof.
  unfold Qlt_bool. rewrite negb_true_iff. split.
  - intros H. apply Qnot_le_lt. intros Hle. apply Qle_bool_iff in Hle. congruence.
  - intros H. destruct (Qle_bool y x) eqn:E; [|reflexivity].
    apply Qle_bool_iff in E. exfalso. apply (Qlt_not_le _ _ H E).
Qed.

Lemma np_max_samples (l : list Q) : l <> [] -> exists m, np_max l = Some m.
Proof. destruct l; [congruence|]. intros _. eexists; reflexivity. Qed.

Lemma np_min_samples (l : list Q) : l <> [] -> exists m, np_min l = Some m.
Proof. destruct l; [congruence|]. intros _. eexists; reflexivity. Qed.

Lemma overlap_checks_spec (rest : list Signal1D) : forall a,
  Forall has_samples (a :: rest) ->
  (overlap_checks a rest = Raise OverlapError <->
   exists i x y, (a :: rest) !! i = Some x /\ (a :: rest) !! S i = Some y
                 /\ disjoint_axes x y) /\
  (forall x, overlap_checks a rest = Raise x -> x = OverlapError).
Proof.
  induction rest as [|b rest IH]; intros a Hs.
  - simpl. split; [split|]; try discriminate.
    intros [i [x [y [_ [Hy _]]]]]. destruct i; discriminate Hy.
  - inversion Hs as [|? ? Ha Hs']; subst. inversion Hs' as [|? ? Hb _]; subst.
    destruct (np_max_samples _ Ha) as [amax Hmax].
    destruct (np_min_samples _ Hb) as [bmin Hmin].
    destruct (IH b Hs') as [IH1 IH2].
    cbn [overlap_checks]. rewrite Hmax, Hmin. cbn [orelse rbind].
    destruct (Qlt_bool amax bmin) eqn:Hlt.
    + split; [split|].
      * intros _. exists 0%nat, a, b. repeat split.
        exists amax, bmin. repeat split; try assumption.
        apply Qlt_bool_iff. exact Hlt.
      * reflexivity.
      * intros x [= <-]. reflexivity.
    + split; [split|].
      * intros H. apply IH1 in H. destruct H as [i [x [y [Hx [Hy Hd]]]]].
        exists (S i), x, y. repeat split; assumption.
      * intros [i [x [y [Hx [Hy Hd]]]]]. destruct i as [|i].
        -- simpl in Hx, Hy. injection Hx as <-. injection Hy as <-.
           destruct Hd as [m1 [m2 [H1 [H2 H3]]]].
           rewrite Hmax in H1. rewrite Hmin in H2.
           injection H1 as <-. injection H2 as <-.
           apply Qlt_bool_iff in H3. congruence.
        -- apply IH1. exists i, x, y. repeat split; assumption.
      * exact IH2.
Qed.

(** C2.  For a list of signals with non-empty axes, [join_spectra]
    raises the overlap error ("Signal axes not overlapping") exactly when
    some adjacent pair of the list has the maximum of the earlier axis strictly
    below the minimum of the later axis.  The test comes before any copy
    or merge: when it fails, the store is the one the call started from.
    Whatever the outcome, every object of the initial store, the inputs
    among them, is left as it was. *)
Theorem join_spectra_overlap_error
    (value2index : Axis -> Q -> option Z)
    (interp1d : string -> list Q -> list (list float64) -> list Q
                -> option (list (list float64)))
    (spectra : list nat) (vals : list Signal1D) (r : Z) (average : bool) (kind : string)
    (hp : list Signal1D) :
  refers hp spectra vals ->
  Forall has_samples vals ->
  let out := join_spectra value2index interp1d spectra r average kind hp in
  (snd out = Raise OverlapError <->
   exists i x y, vals !! i = Some x /\ vals !! S i = Some y /\ disjoint_axes x y) /\
  (snd out = Raise OverlapError -> fst out = hp) /\
  (forall l, (l < length hp)%nat -> fst out !! l = hp !! l).
Proof.
  intros Hr Hs out.
  destruct (join_spectra_run value2index interp1d spectra vals r average kind hp Hr)
    as [hp' [res [Hrun [Hkeep [Hval Hchk]]]]].
  subst out. rewrite Hrun. cbn [fst snd].
  assert (Hiff : res = Raise OverlapError <->
                 exists i x y, vals !! i = Some x /\ vals !! S i = Some y
                               /\ disjoint_axes x y).
  { destruct vals as [|a rest].
    - simpl in Hval. subst res. split; [discriminate|].
      intros [i [x [y [Hx _]]]]. discriminate Hx.
    - destruct (overlap_checks_spec rest a Hs) as [Hspec Honly].
      cbn [join_value] in Hval.
      destruct (overlap_checks a rest) as [[]|x] eqn:Hc; cbn [rbind] in Hval.
      + split.
        * intros ->.
          destruct (join_fold value2index interp1d a rest r average kind) as [v|x] eqn:Hf.
          -- destruct Hval as [Hval _]. discriminate Hval.
          -- injection Hval as <-. apply join_fold_raise in Hf.
             apply library_exn_not_overlap in Hf. congruence.
        * intros H. apply Hspec in H. discriminate H.
      + subst res. rewrite (Honly x eq_refl). split; [|reflexivity].
        intros _. apply Hspec. rewrite (Honly x eq_refl). reflexivity. }
  split; [exact Hiff|]. split; [|exact Hkeep].
  intros Hres. destruct vals as [|a rest].
  - simpl in Hval. subst res. discriminate Hres.
  - destruct (overlap_checks_spec rest a Hs) as [Hspec Honly].
    apply Hiff in Hres. apply Hspec in Hres.
    eapply Hchk; [reflexivity|exact Hres].
Qed.

Lemma join_spectra_overlap_error_witness :
  let A := constant_signal (uniform_axis 500 1 3) 10 in
  let B := constant_signal (uniform_axis 700 1 3) 20 in
  let out := join_spectra value2index_nearest interp1d_ref [0%nat; 1%nat] 1 false
                          "slinear" [A; B] in
  snd out = Raise OverlapError /\ fst out = [A; B].
Proof.
  intros A B out.
  destruct (join_spectra_overlap_error value2index_nearest interp1d_ref
              [0%nat; 1%nat] [A; B] 1 false "slinear" [A; B]) as [H1 [H2 _]].
  - repeat constructor.
  - repeat constructor; discriminate.
  - assert (H : snd out = Raise OverlapError).
    { apply H1. exists 0%nat, A, B. repeat split.
      exists 502, 700. repeat split. }
    split; [exact H|apply H2; exact H].
Defined.

(* ================================================================== *)
(** * The test on [r] *)

(** C3.  In a step whose overlap centre has been located at [ind1] in the
    accumulator and [ind2] in the next spectrum, and where the maximum of
    the accumulator axis sits at index [imax]: the step raises the range
    error ("`r` is too large") exactly when [imax - ind1] is not strictly
    greater than [r]; when it is strictly greater, the seam indices are
    [ind1] and [ind2] (advanced by one when the sample of the accumulator
    is the larger one) and the step goes on without that error. *)
Theorem join_step_range_error
    (value2index : Axis -> Q -> option Z)
    (interp1d : string -> list Q -> list (list float64) -> list Q
                -> option (list (list float64)))
    (S1 S2 : Signal1D) (r : Z) (average : bool) (kind : string)
    (omax omin a1 b2 : Q) (ind1 ind2 imax : Z) :
  np_max (axis_values (signal_axis S1)) = Some omax ->
  np_min (axis_values (signal_axis S2)) = Some omin ->
  value2index (signal_axis S1) ((omax + omin) / 2) = Some ind1 ->
  value2index (signal_axis S2) ((omax + omin) / 2) = Some ind2 ->
  py_index (axis_values (signal_axis S1)) ind1 = Some a1 ->
  py_index (axis_values (signal_axis S2)) ind2 = Some b2 ->
  value2index (signal_axis S1) omax = Some imax ->
  (join_step value2index interp1d S1 S2 r average kind = Raise RangeError
   <-> (imax - ind1 <= r)%Z) /\
  ((r < imax - ind1)%Z ->
   seam value2index (signal_axis S1) (signal_axis S2) r
   = Ok (ind1, if Qlt_bool b2 a1 then (ind2 + 1)%Z else ind2)).
Proof.
  intros Hmax Hmin H1 H2 Ha Hb Himax.
  assert (Hseam : seam value2index (signal_axis S1) (signal_axis S2) r
                  = if (imax - ind1 <=? r)%Z then Raise RangeError
                    else Ok (ind1, if Qlt_bool b2 a1 then (ind2 + 1)%Z else ind2)).
  { unfold seam. rewrite Hmax, Hmin. cbn [orelse rbind].
    rewrite H1, H2. cbn [orelse rbind]. rewrite Ha, Hb. cbn [orelse rbind].
    rewrite Himax. cbn [orelse rbind]. reflexivity. }
  split; [split|].
  - intros Hstep. destruct (Z.leb_spec (imax - ind1) r) as [Hle|Hgt]; [exact Hle|].
    exfalso. apply join_step_after_seam with (ind1 := ind1)
      (ind2 := if Qlt_bool b2 a1 then (ind2 + 1)%Z else ind2) in Hstep.
    + destruct Hstep as [Hx|Hx]; discriminate Hx.
    + exact Hseam.
  - intros Hle. unfold join_step. rewrite Hseam.
    destruct (Z.leb_spec (imax - ind1) r) as [_|Hgt]; [reflexivity|lia].
  - intros Hgt. rewrite Hseam.
    destruct (Z.leb_spec (imax - ind1) r) as [Hle|_]; [lia|reflexivity].
Qed.

Lemma join_step_range_error_witness :
  let A := constant_signal (uniform_axis 500 1 11) 10 in
  let B := constant_signal (uniform_axis 506 1 11) 20 in
  join_step value2index_nearest interp1d_ref A B 2 false "slinear" = Raise RangeError
  /\ seam value2index_nearest (signal_axis A) (signal_axis B) 1 = Ok (8%Z, 2%Z).
Proof.
  intros A B. split.
  - apply (join_step_range_error value2index_nearest interp1d_ref A B 2 false "slinear"
             510 506 508 508 8 2 10); first [reflexivity | lia].
  - apply (join_step_range_error value2index_nearest interp1d_ref A B 1 false "slinear"
             510 506 508 508 8 2 10); first [reflexivity | lia].
Defined.

(* ================================================================== *)
(** * The interpolation method *)

Section KindIgnored.
Variable value2index : Axis -> Q -> option Z.
Variable interp1d :
  string -> list Q -> list (list float64) -> list Q -> option (list (list float64)).

Lemma join_rest_kind rest : forall S1 r average kind hp,
  join_rest value2index interp1d S1 rest r average kind hp
  = join_rest value2index interp1d S1 rest r average "slinear" hp.
Proof.
  induction rest as [|Si rest IH]; intros S1 r average kind hp; [reflexivity|].
  cbn [join_rest]. unfold bind.
  destruct (deepcopy Si hp) as [hp1 [S2|x]]; [|reflexivity].
  change (join_pair value2index interp1d S1 S2 r average kind hp1)
    with (join_pair value2index interp1d S1 S2 r average "slinear" hp1).
  destruct (join_pair value2index interp1d S1 S2 r average "slinear" hp1)
    as [hp2 [[]|x]]; [|reflexivity].
  apply IH.
Qed.
End KindIgnored.

(** C4 (the code departs from it).  [join_spectra] does not use its
    [kind] argument: whatever method is asked for, the call is the call
    with ['slinear'], on any store and with any interpolation routine.
    On the ramp spectra below, asking for ['previous'] returns the
    piecewise linear values, which differ from those of the step run with
    the method asked for. *)
Theorem join_spectra_kind_ignored :
  (forall value2index interp1d (S : list nat) r average kind (hp : list Signal1D),
      join_spectra value2index interp1d S r average kind hp
      = join_spectra value2index interp1d S r average "slinear" hp) /\
  (let A := ramp_signal (uniform_axis 0 1 11) in
   let B := ramp_signal (uniform_axis 6.5 1 8) in
   exists x y,
     sample (join_step value2index_nearest interp1d_ref A B 1 false "previous") 0 9
     = Some x /\
     sample (join_step value2index_nearest interp1d_ref A B 1 false "slinear") 0 9
     = Some x /\
     sample (join_step_documented value2index_nearest interp1d_ref A B 1 false "previous")
            0 9 = Some y /\
     feqb x y = false).
Proof.
  split.
  - intros value2index interp1d S r average kind hp.
    destruct S as [|s0 rest]; [reflexivity|].
    cbn [join_spectra]. unfold bind.
    destruct (check_overlap s0 rest hp) as [hp1 [[]|x]]; [|reflexivity].
    destruct (deepcopy s0 hp1) as [hp2 [S1|x]]; [|reflexivity].
    rewrite join_rest_kind. reflexivity.
  - intros A B. eexists. eexists.
    split; [vm_compute; reflexivity|].
    split; [vm_compute; reflexivity|].
    split; [vm_compute; reflexivity|].
    vm_compute. reflexivity.
Qed.

(* ================================================================== *)
(** * Non-uniform axes *)

Lemma axis_values_convert (ax : Axis) :
  axis_values (convert_to_non_uniform_axis ax) = axis_values ax.
Proof. destruct ax as [n u nv [o s z|a|x a]]; reflexivity. Qed.

Lemma scale_signal_axis (S2 S2' : Signal1D) (factor : list float64) :
  scale_signal S2 factor = Ok S2' -> signal_axis S2' = signal_axis S2.
Proof.
  unfold scale_signal. destruct (scale_rows factor (data S2)); simpl; [|discriminate].
  intros [= <-]. reflexivity.
Qed.

Lemma merge_nonuniform_axis (S1 S2 out : Signal1D) (ind1 ind2 r : Z) (average : bool) :
  merge_nonuniform S1 S2 ind1 ind2 r average = Ok out ->
  axis_values (signal_axis out)
  = py_slice None (Some ind1) (axis_values (signal_axis S1))
    ++ py_slice (Some ind2) None (axis_values (signal_axis S2)).
Proof.
  unfold merge_nonuniform. rewrite !axis_values_convert. destruct average.
  - destruct (np_mean2 _ _); simpl; [|discriminate].
    destruct (hstack3 _ _ _); simpl; [|discriminate].
    intros [= <-]. reflexivity.
  - destruct (hstack2 _ _); simpl; [|discriminate].
    intros [= <-]. reflexivity.
Qed.

(** C5.  In a step whose accumulator axis is not uniform, the merged
    axis is [A.axis[:ind1]] followed by [B.axis[ind2:]], at the seam
    indices [ind1], [ind2] of the step, so that its length is the sum of
    the two lengths; and no interpolation takes place: the step returns
    the same signal with any interpolation routine and any method. *)
Theorem join_step_nonuniform_axis
    (value2index : Axis -> Q -> option Z)
    (interp1d : string -> list Q -> list (list float64) -> list Q
                -> option (list (list float64)))
    (S1 S2 out : Signal1D) (r : Z) (average : bool) (kind : string) :
  is_uniform (signal_axis S1) = false ->
  join_step value2index interp1d S1 S2 r average kind = Ok out ->
  exists ind1 ind2,
    seam value2index (signal_axis S1) (signal_axis S2) r = Ok (ind1, ind2) /\
    axis_values (signal_axis out)
    = py_slice None (Some ind1) (axis_values (signal_axis S1))
      ++ py_slice (Some ind2) None (axis_values (signal_axis S2)) /\
    axis_size (signal_axis out)
    = (length (py_slice None (Some ind1) (axis_values (signal_axis S1)))
       + length (py_slice (Some ind2) None (axis_values (signal_axis S2))))%nat /\
    (forall interp1d' kind',
        join_step value2index interp1d' S1 S2 r average kind' = Ok out).
Proof.
  intros Hnu Hstep. unfold join_step in Hstep.
  destruct (seam value2index (signal_axis S1) (signal_axis S2) r)
    as [[ind1 ind2]|x] eqn:Hseam; [|discriminate].
  cbn [rbind] in Hstep.
  destruct (scaling_factor S1 S2 ind1 ind2 r) as [factor|x] eqn:Hf; [|discriminate].
  cbn [rbind] in Hstep.
  destruct (scale_signal S2 factor) as [S2'|x] eqn:Hs; [|discriminate].
  cbn [rbind] in Hstep. unfold merge in Hstep. rewrite Hnu in Hstep.
  assert (Hax : axis_values (signal_axis out)
                = py_slice None (Some ind1) (axis_values (signal_axis S1))
                  ++ py_slice (Some ind2) None (axis_values (signal_axis S2))).
  { rewrite <- (scale_signal_axis S2 S2' factor Hs).
    eapply merge_nonuniform_axis. exact Hstep. }
  exists ind1, ind2. split; [reflexivity|]. split; [exact Hax|]. split.
  - unfold axis_size. rewrite Hax. apply length_app.
  - intros interp1d' kind'. unfold join_step. rewrite Hseam. cbn [rbind].
    rewrite Hf. cbn [rbind]. rewrite Hs. cbn [rbind].
    unfold merge. rewrite Hnu. exact Hstep.
Qed.

Lemma join_step_nonuniform_axis_witness :
  let A := constant_signal (sample_axis [1.0; 1.5; 2.2; 3.0; 3.8; 4.5]) 1 in
  let B := constant_signal (sample_axis [3.5; 4.0; 4.5; 5.0; 5.6]) 2 in
  exists out,
    join_step value2index_nearest interp1d_ref A B 0 false "slinear" = Ok out /\
    seam value2index_nearest (signal_axis A) (signal_axis B) 0 = Ok (4%Z, 1%Z) /\
    axis_values (signal_axis out) = [1.0; 1.5; 2.2; 3.0] ++ [4.0; 4.5; 5.0; 5.6] /\
    axis_size (signal_axis out) = (4 + 4)%nat.
Proof.
  intros A B.
  eassert (Hstep : join_step value2index_nearest interp1d_ref A B 0 false "slinear"
                   = Ok _) by (vm_compute; reflexivity).
  assert (Hs : seam value2index_nearest (signal_axis A) (signal_axis B) 0
               = Ok (4%Z, 1%Z)) by (vm_compute; reflexivity).
  destruct (join_step_nonuniform_axis value2index_nearest interp1d_ref A B _ 0 false
              "slinear" eq_refl Hstep) as [ind1 [ind2 [Hseam [Hax [Hsize _]]]]].
  rewrite Hs in Hseam. injection Hseam as <- <-.
  eexists. split; [exact Hstep|]. split; [exact Hs|].
  split; [exact Hax|exact Hsize].
Defined.

(* ================================================================== *)
(** * The shape of the joined signal *)

Lemma py_slice_length {A B} (a b : option Z) (l : list A) (l' : list B) :
  length l = length l' -> length (py_slice a b l) = length (py_slice a b l').
Proof.
  intros H. unfold py_slice. rewrite !length_take, !length_drop, H. reflexivity.
Qed.

Lemma Forall_zip_with_2 {A B C} (f : A -> B -> C) (P : A -> Prop) (Q : B -> Prop)
    (R : C -> Prop) (l1 : list A) (l2 : list B) :
  (forall x y, P x -> Q y -> R (f x y)) ->
  Forall P l1 -> Forall Q l2 -> Forall R (zip_with f l1 l2).
Proof.
  intros Hf H1. revert l2. induction H1 as [|x l1 Hx _ IH]; intros l2 H2; simpl.
  - constructor.
  - destruct H2 as [|y l2 Hy H2]; constructor.
    + apply Hf; assumption.
    + apply IH. exact H2.
Qed.

Lemma scale_signal_shape (S2 S2' : Signal1D) (factor : list float64) :
  scale_signal S2 factor = Ok S2' -> shape_ok S2 -> shape_ok S2'.
Proof.
  unfold scale_signal, scale_rows, shape_ok.
  destruct (broadcast_to (length (data S2)) factor) as [fs|]; simpl; [|discriminate].
  intros [= <-] H. simpl.
  eapply (Forall_zip_with_2 _ (fun _ => True)); [| |exact H].
  - intros f row _ Hrow. simpl in Hrow. rewrite length_map. exact Hrow.
  - apply Forall_forall. intros; exact I.
Qed.

(** The sibling branch: on axes given by their samples and with
    [average=False], a step on well-shaped signals returns a well-shaped
    signal, whatever the seam indices. *)
Lemma join_step_nonuniform_center_shape
    (value2index : Axis -> Q -> option Z)
    (interp1d : string -> list Q -> list (list float64) -> list Q
                -> option (list (list float64)))
    (S1 S2 out : Signal1D) (r : Z) (kind : string) :
  is_uniform (signal_axis S1) = false ->
  shape_ok S1 -> shape_ok S2 ->
  join_step value2index interp1d S1 S2 r false kind = Ok out ->
  shape_ok out.
Proof.
  intros Hnu H1 H2 Hstep. unfold join_step in Hstep.
  destruct (seam value2index (signal_axis S1) (signal_axis S2) r)
    as [[ind1 ind2]|x]; [|discriminate].
  cbn [rbind] in Hstep.
  destruct (scaling_factor S1 S2 ind1 ind2 r) as [factor|x]; [|discriminate].
  cbn [rbind] in Hstep.
  destruct (scale_signal S2 factor) as [S2'|x] eqn:Hs; [|discriminate].
  cbn [rbind] in Hstep. unfold merge in Hstep. rewrite Hnu in Hstep.
  pose proof (scale_signal_shape S2 S2' factor Hs H2) as H2'.
  pose proof (merge_nonuniform_axis S1 S2' out ind1 ind2 r false Hstep) as Hax.
  unfold merge_nonuniform, hstack2 in Hstep.
  destruct (Nat.eqb _ _); simpl in Hstep; [|discriminate].
  injection Hstep as <-. unfold shape_ok, axis_size in *. rewrite Hax. simpl.
  unfold isig. rewrite !zip_with_fmap_l, !zip_with_fmap_r.
  eapply Forall_zip_with_2; [|exact H1|exact H2'].
  intros x y Hx Hy. simpl in Hx, Hy. rewrite !length_app. f_equal.
  - apply py_slice_length. exact Hx.
  - apply py_slice_length. exact Hy.
Qed.

(** C6 (the code departs from it).  Both inputs below satisfy
    [data.shape[-1] == axis.size]; the second spectrum ends less than one
    step of the first beyond the seam.  The step succeeds, on the uniform
    branch with [average=False], and returns a signal whose axis has 8
    samples and whose data has 9. *)
Theorem join_step_shape_mismatch :
  let A := constant_signal (uniform_axis 0 1 11) 10 in
  let B := constant_signal (uniform_axis 6 0.5 6) 20 in
  shape_ok A /\ shape_ok B /\
  exists out,
    join_step value2index_nearest interp1d_ref A B 1 false "slinear" = Ok out /\
    join_value value2index_nearest interp1d_ref [A; B] 1 false "slinear" = Ok out /\
    axis_size (signal_axis out) = 8%nat /\
    map (@length float64) (data out) = [9%nat] /\
    ~ shape_ok out.
Proof.
  intros A B. split; [repeat constructor|]. split; [repeat constructor|].
  eexists. split; [vm_compute; reflexivity|].
  split; [vm_compute; reflexivity|].
  split; [reflexivity|]. split; [reflexivity|].
  intros H. inversion H as [|row rows Hrow _]; subst. discriminate Hrow.
Qed.

(* ================================================================== *)
(** * The scaling factor *)

Lemma ratio_where (x y : float64) :
  (if fnonzero y then fdiv x y else NaN) = ratio_or_nan x y.
Proof.
  unfold ratio_or_nan. destruct y as [q|]; simpl; [|reflexivity].
  destruct (Qeq_bool q 0); reflexivity.
Qed.

Lemma divide_masked (a b : list float64) :
  zip_with (fun '(x, y) '(o, m) => if (m : bool) then fdiv x y else o)
           (zip a b) (zip (map (fun _ => NaN) b) (map fnonzero b))
  = zip_with ratio_or_nan a b.
Proof.
  revert b. induction a as [|x a IH]; intros [|y b]; simpl; try reflexivity.
  rewrite ratio_where, IH. reflexivity.
Qed.

Lemma divide_row_spec (a b : list float64) :
  divide_row a b (map (fun _ => NaN) b) (map fnonzero b)
  = match broadcast_to (length b) a with
    | Some a' => Some (zip_with ratio_or_nan a' b)
    | None => None
    end.
Proof.
  unfold divide_row. destruct (broadcast_to (length b) a); [|reflexivity].
  rewrite divide_masked. reflexivity.
Qed.

Lemma divide_rows_spec (a b : list (list float64)) :
  mapM (fun '(x, y, (o, m)) => divide_row x y o m)
       (zip (zip a b) (zip (map (map (fun _ => NaN)) b) (map (map fnonzero) b)))
  = match mapM (fun '(x, y) => broadcast_to (length y) x) (zip a b) with
    | Some a' => Some (zip_with (zip_with ratio_or_nan) a' b)
    | None => None
    end.
Proof.
  revert b. induction a as [|x a IH]; intros [|y b]; simpl; try reflexivity.
  rewrite divide_row_spec, IH.
  destruct (broadcast_to (length y) x); [|reflexivity].
  destruct (mapM _ (zip a b)); reflexivity.
Qed.

Lemma np_divide_spec (wa wb : list (list float64)) :
  np_divide wa wb (map (map (fun _ => NaN)) wb) (map (map fnonzero) wb)
  = match broadcast_window wa wb with
    | Some wa' => Some (zip_with (zip_with ratio_or_nan) wa' wb)
    | None => None
    end.
Proof.
  unfold np_divide, broadcast_window.
  destruct (broadcast_to (length wb) wa); [|reflexivity].
  apply divide_rows_spec.
Qed.



Lemma broadcast_window_same_shape (wa wb : list (list float64)) :
  same_shape wa wb -> broadcast_window wa wb = Some wa.
Proof.
  intros H. unfold broadcast_window.
  rewrite broadcast_to_same_length by (eapply Forall2_length; exact H).
  induction H as [|x y wa wb Hxy _ IH]; simpl; [reflexivity|].
  rewrite broadcast_to_same_length by exact Hxy. rewrite IH. reflexivity.
Qed.

Lemma scaling_factor_spec (S1 S2 : Signal1D) (ind1 ind2 r : Z) :
  scaling_factor S1 S2 ind1 ind2 r
  = let* wa' := orelse (broadcast_window
                          (isig (Some (ind1 - r)%Z) (Some (ind1 + r)%Z) (data S1))
                          (isig (Some (ind2 - r)%Z) (Some (ind2 + r)%Z) (data S2)))
                       LibraryError in
    Ok (spec_factor wa' (isig (Some (ind2 - r)%Z) (Some (ind2 + r)%Z) (data S2))).
Proof.
  unfold scaling_factor. cbv zeta. rewrite np_divide_spec.
  destruct (broadcast_window _ _); reflexivity.
Qed.

Section FactorRefinement.
Variable value2index : Axis -> Q -> option Z.
Variable interp1d :
  string -> list Q -> list (list float64) -> list Q -> option (list (list float64)).

End FactorRefinement.




(* ================================================================== *)
(** * The refractive index of air and the conversion between nm and eV *)

Lemma Qpow2 (t : Q) : t ^ 2 == t * t.
Proof. reflexivity. Qed.

Lemma inv_sq_eq (x : Q) : 0 < x -> inv_sq x * (x * x) == 1000000.
Proof.
  intros Hx. unfold inv_sq. rewrite Qpow2. field. lra.
Qed.

Lemma inv_sq_bounds (x : Q) : 184 <= x -> 0 < inv_sq x /\ inv_sq x <= 30.
Proof.
  intros Hx. pose proof (inv_sq_eq x ltac:(lra)) as He.
  set (s := inv_sq x) in *. clearbody s.
  split.
  - assert (0 < x * x) by nra. nra.
  - assert (184*184 <= x * x) by nra. nra.
Qed.

Lemma inv_sq_anti (x y : Q) : 184 <= x -> x <= y ->
  inv_sq y <= inv_sq x /\ inv_sq x - inv_sq y <= 0.5 * (y - x).
Proof.
  intros Hx Hxy.
  pose proof (inv_sq_eq x ltac:(lra)) as Hex.
  pose proof (inv_sq_eq y ltac:(lra)) as Hey.
  pose proof (inv_sq_bounds x Hx) as [Hx0 Hx1].
  pose proof (inv_sq_bounds y ltac:(lra)) as [Hy0 Hy1].
  set (s := inv_sq x) in *. set (t := inv_sq y) in *. clearbody s t.
  split.
  - (* t * y*y = s * x*x, y*y >= x*x *)
    assert (x * x <= y * y) by nra.
    assert (0 < x * x) by nra.
    nra.
  - assert (H0 : s * (y + x) <= 30 * (y + x)).
    { apply Qmult_le_compat_r; lra. }
    assert (H0' : 120 * y <= y * y).
    { apply Qmult_le_compat_r; lra. }
    assert (H1 : s * (y + x) <= 0.5 * (y * y)) by lra.
    assert (H2 : (s - t) * (y * y) == s * (y - x) * (y + x)).
    { transitivity (s * (y * y) - t * (y * y)); [ring|]. rewrite Hey.
      transitivity (s * (y * y) - s * (x * x)); [rewrite Hex; reflexivity|ring]. }
    assert (H3 : (s - t) * (y * y) <= 0.5 * (y - x) * (y * y)) by nra.
    assert (H4 : 0 < y * y) by nra.
    nra.
Qed.

Lemma inv_sq_strict (x y : Q) : 184 <= x -> x < y -> inv_sq y < inv_sq x.
Proof.
  intros Hx Hxy.
  pose proof (inv_sq_eq x ltac:(lra)) as Hex.
  pose proof (inv_sq_eq y ltac:(lra)) as Hey.
  pose proof (inv_sq_bounds y ltac:(lra)) as [Hy0 Hy1].
  set (s := inv_sq x) in *. set (t := inv_sq y) in *. clearbody s t.
  assert (x * x < y * y) by nra.
  assert (0 < x * x) by nra.
  assert (t * (x * x) < t * (y * y)) by nra.
  nra.
Qed.

Lemma n_air_inv_sq x :
  _n_air x == 1 + 0.0000806051 + 0.0248099 / (132.274 - inv_sq x)
              + 0.000174557 / (39.32957 - inv_sq x).
Proof.
  unfold _n_air. cbv zeta. fold (inv_sq x).
  assert (E1 : 806051e-10 == 0.0000806051) by reflexivity.
  assert (E2 : 2480990e-8 == 0.0248099) by reflexivity.
  assert (E3 : 132274e-3 == 132.274) by reflexivity.
  assert (E4 : 174557e-9 == 0.000174557) by reflexivity.
  assert (E5 : 3932957e-5 == 39.32957) by reflexivity.
  rewrite E1, E2, E3, E4, E5. reflexivity.
Qed.

(* a/(b - s) for 0 < s <= 30 < b *)
Lemma frac_bounds (a b s : Q) : 0 < a -> 30 < b -> 0 < s -> s <= 30 ->
  a / b <= a / (b - s) /\ a / (b - s) <= a / (b - 30).
Proof.
  intros Ha Hb Hs0 Hs1.
  assert (E1 : a / b * b == a) by (field; lra).
  assert (E2 : a / (b - s) * (b - s) == a) by (field; lra).
  assert (E3 : a / (b - 30) * (b - 30) == a) by (field; lra).
  assert (P1 : 0 < a / b) by (apply Qlt_shift_div_l; lra).
  assert (P2 : 0 < a / (b - s)) by (apply Qlt_shift_div_l; lra).
  assert (P3 : 0 < a / (b - 30)) by (apply Qlt_shift_div_l; lra).
  set (u := a / b) in *. set (v := a / (b - s)) in *. set (w := a / (b - 30)) in *.
  clearbody u v w.
  split; nra.
Qed.

Lemma n_air_bounds x : 184 <= x -> 1.00027 <= _n_air x /\ _n_air x <= 1.00035.
Proof.
  intros Hx. rewrite n_air_inv_sq.
  destruct (inv_sq_bounds x Hx) as [H0 H1].
  set (s := inv_sq x) in *. clearbody s.
  destruct (frac_bounds 0.0248099 132.274 s) as [Ha Hb]; try lra.
  destruct (frac_bounds 0.000174557 39.32957 s) as [Hc Hd]; try lra.
  assert (0.0248099 / (132.274 - 30) <= 0.000243) by (apply Qle_shift_div_r; lra).
  assert (0.000174557 / (39.32957 - 30) <= 0.0000188) by (apply Qle_shift_div_r; lra).
  assert (0.000187 <= 0.0248099 / 132.274) by (apply Qle_shift_div_l; lra).
  assert (0.0000044 <= 0.000174557 / 39.32957) by (apply Qle_shift_div_l; lra).
  set (p := 0.0248099 / (132.274 - s)) in *.
  set (q := 0.000174557 / (39.32957 - s)) in *. clearbody p q.
  split; lra.
Qed.

Lemma frac_lipschitz (a b L s t : Q) :
  0 < a -> 30 < b -> 0 < t -> t <= s -> s <= 30 ->
  a <= L * ((b - 30) * (b - 30)) ->
  0 <= a / (b - s) - a / (b - t) /\
  a / (b - s) - a / (b - t) <= L * (s - t) /\
  (t < s -> 0 < a / (b - s) - a / (b - t)).
Proof.
  intros Ha Hb Ht Hts Hs HL.
  assert (E1 : a / (b - s) * (b - s) == a) by (field; lra).
  assert (E2 : a / (b - t) * (b - t) == a) by (field; lra).
  assert (P1 : 0 < a / (b - s)) by (apply Qlt_shift_div_l; lra).
  assert (P2 : 0 < a / (b - t)) by (apply Qlt_shift_div_l; lra).
  set (v := a / (b - s)) in *. set (w := a / (b - t)) in *. clearbody v w.
  assert (E3 : (v - w) * (b - s) == w * (s - t)).
  { transitivity (v * (b - s) - w * (b - t) + w * (s - t)); [ring|].
    rewrite E1, E2. ring. }
  assert (H0 : 0 <= w * (s - t)) by (apply Qmult_le_0_compat; lra).
  assert (Hvw : 0 <= v - w) by nra.
  split; [exact Hvw|]. split.
  - assert (H1 : w * (b - 30) <= a) by nra.
    assert (H2 : (v - w) * (b - 30) <= (v - w) * (b - s)) by nra.
    assert (H3 : (v - w) * (b - 30) * (b - 30) <= a * (s - t)) by nra.
    assert (H4 : a * (s - t) <= L * ((b - 30) * (b - 30)) * (s - t)) by nra.
    assert (H5 : 0 < (b - 30) * (b - 30)) by nra.
    nra.
  - intros Hlt. assert (0 < w * (s - t)) by nra. nra.
Qed.

Lemma n_air_lipschitz (x y : Q) : 184 <= x -> x <= y ->
  0 <= _n_air x - _n_air y /\ _n_air x - _n_air y <= 0.000003 * (y - x)
  /\ (x < y -> 0 < _n_air x - _n_air y).
Proof.
  intros Hx Hxy. rewrite !n_air_inv_sq.
  destruct (inv_sq_bounds x Hx) as [Hx0 Hx1].
  destruct (inv_sq_bounds y ltac:(lra)) as [Hy0 Hy1].
  destruct (inv_sq_anti x y Hx Hxy) as [Hanti Hlip].
  destruct (frac_lipschitz 0.0248099 132.274 0.000003 (inv_sq x) (inv_sq y))
    as [Ha [Hb Hc]]; try lra.
  destruct (frac_lipschitz 0.000174557 39.32957 0.000003 (inv_sq x) (inv_sq y))
    as [Ha' [Hb' Hc']]; try lra.
  split; [lra|]. split; [lra|].
  intros Hlt. pose proof (inv_sq_strict x y Hx Hlt). specialize (Hc ltac:(assumption)). lra.
Qed.

Lemma n_air_times_increasing (x y : Q) : 185 <= x -> x < y -> x <= 1700 ->
  _n_air x * x < _n_air y * y.
Proof.
  intros Hx Hxy Hy.
  destruct (n_air_lipschitz x y ltac:(lra) ltac:(lra)) as [H0 [H1 _]].
  destruct (n_air_bounds y ltac:(lra)) as [Hn _].
  set (n := _n_air x) in *. set (m := _n_air y) in *. clearbody n m.
  assert (H2 : (n - m) * x <= 0.000003 * (y - x) * x) by (apply Qmult_le_compat_r; lra).
  assert (H3 : 0.000003 * (y - x) * x <= 0.0051 * (y - x)) by nra.
  assert (H4 : 1.00027 * (y - x) <= m * (y - x)) by (apply Qmult_le_compat_r; lra).
  nra.
Qed.

Lemma Qdiv_anti (a d1 d2 : Q) : 0 < a -> 0 < d1 -> d1 < d2 -> a / d2 < a / d1.
Proof.
  intros Ha H1 H2.
  apply Qlt_shift_div_l; [lra|].
  assert (E : a / d2 * d2 == a) by (field; lra).
  assert (P : 0 < a / d2) by (apply Qlt_shift_div_l; lra).
  set (u := a / d2) in *. clearbody u. nra.
Qed.

Lemma numerator_pos k : positive_constants k -> 0 < 1e9 * h k * c k.
Proof.
  intros [Hh [Hc He]].
  assert (E : 1e9 == 1000000000) by reflexivity. rewrite E.
  assert (0 < h k * c k) by nra. nra.
Qed.

Lemma nm2eV_decreasing k x y : positive_constants k ->
  185 <= x -> x < y -> y <= 1700 -> nm2eV k y < nm2eV k x.
Proof.
  intros Hk Hx Hxy Hy. pose proof (numerator_pos k Hk) as HN.
  destruct Hk as [Hh [Hc He]]. unfold nm2eV.
  pose proof (n_air_times_increasing x y Hx Hxy ltac:(lra)) as Hinc.
  destruct (n_air_bounds x ltac:(lra)) as [Hnx _].
  set (N := 1e9 * h k * c k) in *. clearbody N.
  set (n := _n_air x) in *. set (m := _n_air y) in *. clearbody n m.
  apply Qdiv_anti; [exact HN| |].
  - assert (0 < n * x) by nra. nra.
  - assert (0 < n * x) by nra. assert (e k * (n * x) < e k * (m * y)) by nra.
    nra.
Qed.

Section RoundTripFacts.
Variable k : Constants.
Hypothesis Hpos : positive_constants k.
Hypothesis Hnear : hc_over_e_near k.

(** The facts about one round trip: with [n] and [m] the refractive
    indices at [x] and at the approximate wavelength [wl]. *)
Lemma roundtrip_facts (x : Q) : 185 <= x -> x <= 1700 ->
  let wl := 1239.5 / nm2eV k x in
  184 <= wl /\
  wl * (1e9 * h k * c k) == 1239.5 * e k * _n_air x * x /\
  eV2nm k (nm2eV k x) * _n_air wl == _n_air x * x.
Proof.
  intros Hx Hx' wl. pose proof (numerator_pos k Hpos) as HN.
  destruct Hpos as [Hh [Hc He]]. destruct Hnear as [Hlo Hhi].
  destruct (n_air_bounds x ltac:(lra)) as [Hn0 Hn1].
  assert (HD : 0 < e k * _n_air x * x).
  { assert (0 < _n_air x * x) by nra. nra. }
  assert (HE : 0 < nm2eV k x) by (unfold nm2eV; apply Qlt_shift_div_l; lra).
  assert (EE : nm2eV k x * (e k * _n_air x * x) == 1e9 * h k * c k).
  { unfold nm2eV. field. lra. }
  assert (Ewl : wl * nm2eV k x == 1239.5) by (unfold wl; field; lra).
  assert (EN : wl * (1e9 * h k * c k) == 1239.5 * e k * _n_air x * x).
  { rewrite <- EE. transitivity (wl * nm2eV k x * (e k * _n_air x * x)); [ring|].
    rewrite Ewl. ring. }
  assert (Hwl : 184 <= wl).
  { assert (Hwl0 : 0 < wl) by (unfold wl; apply Qlt_shift_div_l; lra).
    set (N := 1e9 * h k * c k) in *. clearbody N.
    set (n := _n_air x) in *. clearbody n. clearbody wl.
    assert (H1 : wl * N <= wl * (1240 * e k)) by nra.
    assert (H2 : 185 * 1.00027 <= n * x) by nra.
    assert (H3 : 1239.5 * e k * (185 * 1.00027) <= 1239.5 * e k * (n * x)) by nra.
    assert (H4 : 1239.5 * (185 * 1.00027) * e k <= wl * 1240 * e k) by nra.
    assert (H5 : 1239.5 * (185 * 1.00027) <= wl * 1240) by nra.
    lra. }
  split; [exact Hwl|]. split; [exact EN|].
  destruct (n_air_bounds wl Hwl) as [Hm0 Hm1].
  change (eV2nm k (nm2eV k x))
    with (1e9 * h k * c k / (e k * _n_air wl * nm2eV k x)).
  rewrite <- EE. field. repeat split; lra.
Qed.
End RoundTripFacts.

Section RoundTrip.
Variable k : Constants.
Hypothesis Hpos : positive_constants k.
Hypothesis Hnear : hc_over_e_near k.

Lemma roundtrip_close (x : Q) : 185 <= x -> x <= 1700 ->
  Qabs (eV2nm k (nm2eV k x) - x) < 0.5.
Proof.
  intros Hx Hx'.
  destruct (roundtrip_facts k Hpos Hnear x Hx Hx') as [Hwl [_ Hr]].
  destruct (n_air_bounds x ltac:(lra)) as [Hn0 Hn1].
  destruct (n_air_bounds _ Hwl) as [Hm0 Hm1].
  set (r := eV2nm k (nm2eV k x)) in *.
  set (m := _n_air (1239.5 / nm2eV k x)) in *.
  set (n := _n_air x) in *. clearbody r m n.
  assert (E : (r - x) * m == (n - m) * x) by (rewrite <- (Qplus_0_r ((n - m) * x)); nra).
  assert (H1 : (n - m) * x <= 0.00008 * 1700) by nra.
  assert (H2 : - (0.00008 * 1700) <= (n - m) * x) by nra.
  apply Qabs_Qlt_condition. split; nra.
Qed.

Lemma roundtrip_exact (x : Q) : 185 <= x -> x <= 1700 ->
  eV2nm k (nm2eV k x) == x ->
  1e9 * h k * c k == 1239.5 * e k * _n_air x.
Proof.
  intros Hx Hx' Hex.
  destruct (roundtrip_facts k Hpos Hnear x Hx Hx') as [Hwl [EN Hr]].
  set (wl := 1239.5 / nm2eV k x) in *.
  rewrite Hex in Hr.
  assert (Hmn : _n_air wl == _n_air x).
  { apply (Qmult_inj_l _ _ x); [lra|]. rewrite Hr. ring. }
  assert (Hwx : wl == x).
  { destruct (Q_dec wl x) as [[Hlt|Hgt]|Heq]; [| |exact Heq]; exfalso.
    - destruct (n_air_lipschitz wl x Hwl ltac:(lra)) as [_ [_ Hs]].
      specialize (Hs Hlt). lra.
    - destruct (n_air_lipschitz x wl ltac:(lra) ltac:(lra)) as [_ [_ Hs]].
      specialize (Hs Hgt). lra. }
  rewrite Hwx in EN.
  apply (Qmult_inj_l _ _ x); [lra|].
  rewrite EN. ring.
Qed.

Lemma roundtrip_not_exact :
  exists x, 185 <= x /\ x <= 1700 /\ ~ eV2nm k (nm2eV k x) == x.
Proof.
  destruct (Qeq_dec (eV2nm k (nm2eV k 200)) 200) as [H200|H200].
  - exists 1000. split; [lra|]. split; [lra|]. intros H1000.
    apply roundtrip_exact in H200; [|lra|lra].
    apply roundtrip_exact in H1000; [|lra|lra].
    destruct Hpos as [_ [_ He]].
    destruct (n_air_lipschitz 200 1000 ltac:(lra) ltac:(lra)) as [_ [_ Hs]].
    specialize (Hs ltac:(lra)).
    set (n := _n_air 200) in *. set (m := _n_air 1000) in *. clearbody n m.
    rewrite H200 in H1000.
    assert (e k * n == e k * m) by lra.
    assert (e k * (n - m) == 0) by lra.
    nra.
  - exists 200. split; [lra|]. split; [lra|]. exact H200.
Qed.
End RoundTrip.

Lemma n_air_proper (x y : Q) : x == y -> _n_air x == _n_air y.
Proof. intros H. unfold _n_air. cbv zeta. rewrite H. reflexivity. Qed.

Section RoundTripCause.
Variable k : Constants.
Hypothesis Hpos : positive_constants k.
Hypothesis Hnear : hc_over_e_near k.

(** The approximate wavelength at which [eV2nm] takes the refractive
    index is within one part in a thousand of the wavelength. *)
Lemma approximate_wavelength_close (x : Q) : 185 <= x -> x <= 1700 ->
  Qabs (1239.5 / nm2eV k x - x) <= 0.001 * x.
Proof.
  intros Hx Hx'.
  destruct (roundtrip_facts k Hpos Hnear x Hx Hx') as [Hwl [EN _]].
  pose proof (numerator_pos k Hpos) as HN.
  destruct Hpos as [_ [_ He]]. destruct Hnear as [Hlo Hhi].
  destruct (n_air_bounds x ltac:(lra)) as [Hn0 Hn1].
  set (wl := 1239.5 / nm2eV k x) in *.
  set (N := 1e9 * h k * c k) in *. set (n := _n_air x) in *.
  clearbody wl N n.
  assert (Hnx : 0 < n * x) by nra.
  assert (H1 : wl * (1239 * e k) <= 1239.5 * (n * x) * e k) by nra.
  assert (H2 : 1239.5 * (n * x) * e k <= wl * (1240 * e k)) by nra.
  assert (H3 : wl * 1239 <= 1239.5 * (n * x)) by nra.
  assert (H4 : 1239.5 * (n * x) <= wl * 1240) by nra.
  assert (H5 : n * x <= 1.00035 * x) by nra.
  assert (H6 : 1.00027 * x <= n * x) by nra.
  apply Qabs_Qle_condition. split; lra.
Qed.

Lemma roundtrip_tight (x : Q) : 185 <= x -> x <= 1700 ->
  Qabs (eV2nm k (nm2eV k x) - x) <= 0.01.
Proof.
  intros Hx Hx'.
  destruct (roundtrip_facts k Hpos Hnear x Hx Hx') as [Hwl [_ Hr]].
  pose proof (approximate_wavelength_close x Hx Hx') as Hclose.
  apply Qabs_Qle_condition in Hclose. destruct Hclose as [Hc1 Hc2].
  destruct (n_air_bounds _ Hwl) as [Hm0 Hm1].
  set (wl := 1239.5 / nm2eV k x) in *.
  assert (Hnm : - (0.000003 * (0.001 * x)) <= _n_air x - _n_air wl /\
                _n_air x - _n_air wl <= 0.000003 * (0.001 * x)).
  { destruct (Qlt_le_dec wl x) as [Hlt|Hle].
    - destruct (n_air_lipschitz wl x Hwl ltac:(lra)) as [H0 [H1 _]]. split; lra.
    - destruct (n_air_lipschitz x wl ltac:(lra) Hle) as [H0 [H1 _]]. split; lra. }
  destruct Hnm as [Hd1 Hd2].
  set (r := eV2nm k (nm2eV k x)) in *.
  set (m := _n_air wl) in *. set (n := _n_air x) in *. clearbody r m n wl.
  assert (E : (r - x) * m == (n - m) * x) by (rewrite <- (Qplus_0_r ((n - m) * x)); nra).
  assert (H1 : (n - m) * x <= 0.000003 * (0.001 * x) * x) by nra.
  assert (H2 : - (0.000003 * (0.001 * x) * x) <= (n - m) * x) by nra.
  assert (H3 : x * x <= 1700 * 1700) by nra.
  apply Qabs_Qle_condition. split; nra.
Qed.

Lemma roundtrip_exact_iff (x : Q) : 185 <= x -> x <= 1700 ->
  eV2nm k (nm2eV k x) == x <-> 1239.5 / nm2eV k x == x.
Proof.
  intros Hx Hx'.
  destruct (roundtrip_facts k Hpos Hnear x Hx Hx') as [Hwl [_ Hr]].
  destruct (n_air_bounds x ltac:(lra)) as [Hn0 _].
  set (wl := 1239.5 / nm2eV k x) in *.
  split.
  - intros Hex. rewrite Hex in Hr.
    assert (Hmn : _n_air wl == _n_air x).
    { apply (Qmult_inj_l _ _ x); [lra|]. rewrite Hr. ring. }
    destruct (Q_dec wl x) as [[Hlt|Hgt]|Heq]; [| |exact Heq]; exfalso.
    + destruct (n_air_lipschitz wl x Hwl ltac:(lra)) as [_ [_ Hs]].
      specialize (Hs Hlt). lra.
    + destruct (n_air_lipschitz x wl ltac:(lra) ltac:(lra)) as [_ [_ Hs]].
      specialize (Hs Hgt). lra.
  - intros Hwx. rewrite (n_air_proper _ _ Hwx) in Hr.
    apply (Qmult_inj_r _ _ (_n_air x)); [lra|]. rewrite Hr. ring.
Qed.
End RoundTripCause.

(** C10.  For constants as [scipy.constants] gives them, and every
    wavelength [x] between 185 and 1700 nm: [eV2nm (nm2eV x)] is [x]
    times the refractive index at [x] over the refractive index at the
    approximate wavelength [1239.5 / eV], which lies within one part in a
    thousand of [x]; it lies within 0.01 nm of [x], hence within 0.5 nm;
    and it is [x] exactly when the approximate wavelength is [x]
    itself.  The round trip is not exact: there is a wavelength of that
    range that it does not give back. *)
Theorem eV2nm_nm2eV_approximate (k : Constants) :
  positive_constants k -> hc_over_e_near k ->
  (forall x, valid_wavelength x ->
     eV2nm k (nm2eV k x) * _n_air (1239.5 / nm2eV k x) == _n_air x * x /\
     Qabs (1239.5 / nm2eV k x - x) <= 0.001 * x /\
     Qabs (eV2nm k (nm2eV k x) - x) <= 0.01 /\
     Qabs (eV2nm k (nm2eV k x) - x) < 0.5 /\
     (eV2nm k (nm2eV k x) == x <-> 1239.5 / nm2eV k x == x)) /\
  (exists x, valid_wavelength x /\ ~ eV2nm k (nm2eV k x) == x).
Proof.
  intros Hpos Hnear. split.
  - intros x [Hlo Hhi].
    destruct (roundtrip_facts k Hpos Hnear x Hlo Hhi) as [_ [_ Hr]].
    split; [exact Hr|].
    split; [apply approximate_wavelength_close; assumption|].
    split; [apply roundtrip_tight; assumption|].
    split; [apply roundtrip_close; assumption|].
    apply roundtrip_exact_iff; assumption.
  - destruct (roundtrip_not_exact k Hpos Hnear) as [x [Hlo [Hhi Hne]]].
    exists x. split; [split; assumption|exact Hne].
Qed.

Lemma CODATA2018_positive : positive_constants CODATA2018.
Proof. repeat split; vm_compute; reflexivity. Qed.

Lemma CODATA2018_hc_over_e : hc_over_e_near CODATA2018.
Proof. split; vm_compute; discriminate. Qed.

Lemma eV2nm_nm2eV_approximate_witness :
  eV2nm CODATA2018 (nm2eV CODATA2018 500) * _n_air (1239.5 / nm2eV CODATA2018 500)
  == _n_air 500 * 500 /\
  Qabs (eV2nm CODATA2018 (nm2eV CODATA2018 500) - 500) <= 0.01.
Proof.
  destruct (eV2nm_nm2eV_approximate CODATA2018) as [Hall _].
  - repeat split; vm_compute; reflexivity.
  - split; vm_compute; discriminate.
  - destruct (Hall 500) as [H1 [_ [H3 _]]].
    + split; vm_compute; discriminate.
    + split; [exact H1|exact H3].
Defined.

(* ================================================================== *)
(** * The energy axis is ascending *)

Lemma ascending_scaled (l : list Q) :
  ascending l -> ascending (map (Qmult 1000) l).
Proof.
  intros Hl i j x y Hij Hi Hj.
  rewrite list_lookup_fmap in Hi, Hj.
  destruct (l !! i) as [a|] eqn:Ha; [|discriminate].
  destruct (l !! j) as [b|] eqn:Hb; [|discriminate].
  injection Hi as <-. injection Hj as <-.
  pose proof (Hl i j a b Hij Ha Hb). lra.
Qed.

Lemma rev_lookup_inv {A} (l : list A) (i : nat) (x : A) :
  rev l !! i = Some x -> (i < length l)%nat /\ l !! (length l - 1 - i)%nat = Some x.
Proof.
  intros H.
  assert (Hi : (i < length l)%nat).
  { rewrite <- length_rev. eapply lookup_lt_Some. exact H. }
  split; [exact Hi|].
  destruct (lookup_lt_is_Some_2 l (length l - 1 - i)%nat) as [z Hz]; [lia|].
  rewrite (rev_lookup_mirror l i z Hi Hz) in H. congruence.
Qed.

Lemma rev_map_ascending (f : Q -> Q) (P : Q -> Prop) (l : list Q) :
  (forall x y, P x -> P y -> x < y -> f y < f x) ->
  Forall P l -> ascending l -> ascending (rev (map f l)).
Proof.
  intros Hf HP Hl i j u v Hij Hi Hj.
  apply rev_lookup_inv in Hi. apply rev_lookup_inv in Hj.
  destruct Hi as [Hil Hi]. destruct Hj as [Hjl Hj].
  rewrite length_map in Hil, Hjl.
  rewrite length_map, list_lookup_fmap in Hi, Hj.
  destruct (l !! (length l - 1 - i)%nat) as [a|] eqn:Ha; [|discriminate].
  destruct (l !! (length l - 1 - j)%nat) as [b|] eqn:Hb; [|discriminate].
  injection Hi as <-. injection Hj as <-.
  apply Hf.
  - eapply Forall_lookup_1; [exact HP|exact Hb].
  - eapply Forall_lookup_1; [exact HP|exact Ha].
  - apply (Hl (length l - 1 - j)%nat (length l - 1 - i)%nat); [lia|assumption|assumption].
Qed.

(** C8.  [nm2eV] is strictly decreasing on the range of validity of the
    refractive index, 185 to 1700 nm.  For a wavelength axis (unit other
    than ['eV']) whose samples are strictly ascending and lie in that
    range, [axis2eV] returns the axis whose samples are the [nm2eV] of the
    samples in nm, in reversed order: it has the same length and is
    strictly ascending. *)
Theorem axis2eV_ascending (k : Constants) :
  positive_constants k ->
  (forall x y, valid_wavelength x -> valid_wavelength y -> x < y ->
               nm2eV k y < nm2eV k x) /\
  (forall ax0,
      units ax0 <> "eV"%string ->
      Forall valid_wavelength (wavelengths_nm ax0) ->
      ascending (axis_values ax0) ->
      exists ax factor,
        axis2eV k ax0 = Ok (ax, factor) /\
        axis_values ax = rev (map (nm2eV k) (wavelengths_nm ax0)) /\
        axis_size ax = axis_size ax0 /\
        ascending (axis_values ax)).
Proof.
  intros Hpos.
  assert (Hdec : forall x y, valid_wavelength x -> valid_wavelength y -> x < y ->
                             nm2eV k y < nm2eV k x).
  { intros x y [Hx _] [_ Hy] Hxy. apply nm2eV_decreasing; assumption. }
  split; [exact Hdec|].
  intros ax0 HeV Hrange Hasc.
  assert (Hnm : ascending (wavelengths_nm ax0)).
  { unfold wavelengths_nm. destruct (String.eqb (units ax0) "µm").
    - apply ascending_scaled. exact Hasc.
    - exact Hasc. }
  assert (Hlen : length (wavelengths_nm ax0) = axis_size ax0).
  { unfold wavelengths_nm, axis_size. destruct (String.eqb (units ax0) "µm").
    - apply length_map.
    - reflexivity. }
  exists (energy_axis (rev (map (nm2eV k) (wavelengths_nm ax0)))).
  exists (if String.eqb (units ax0) "µm" then 1e3 else 1e6).
  split; [|split; [reflexivity|split]].
  - unfold axis2eV, wavelengths_nm, energy_axis.
    destruct (String.eqb_spec (units ax0) "eV") as [H|_]; [contradiction|].
    destruct (String.eqb (units ax0) "µm"); reflexivity.
  - unfold axis_size at 1, energy_axis, axis_values. cbn [kind_of].
    rewrite length_rev, length_map. exact Hlen.
  - simpl. eapply rev_map_ascending; [exact Hdec|exact Hrange|exact Hnm].
Qed.

Lemma axis2eV_ascending_witness :
  nm2eV CODATA2018 600 < nm2eV CODATA2018 500 /\
  exists ax factor,
    axis2eV CODATA2018 (sample_axis [500; 550; 600]) = Ok (ax, factor) /\
    ascending (axis_values ax).
Proof.
  destruct (axis2eV_ascending CODATA2018) as [Hdec Hax].
  - repeat split; vm_compute; reflexivity.
  - split.
    + apply Hdec; [split; vm_compute; discriminate|split; vm_compute; discriminate|].
      vm_compute. reflexivity.
    + destruct (Hax (sample_axis [500; 550; 600])) as [ax [factor [H1 [_ [_ H2]]]]].
      * simpl. discriminate.
      * repeat constructor; vm_compute; discriminate.
      * intros [|[|[|i]]] [|[|[|j]]] x y Hij Hi Hj; simpl in Hi, Hj;
          try lia; try discriminate;
          injection Hi as <-; injection Hj as <-; vm_compute; reflexivity.
      * exists ax, factor. split; assumption.
Defined.

(* ================================================================== *)
(** * Further properties of the conversion functions *)

(** X1.  From 184 nm upwards, and so on the whole range of validity
    185-1700 nm of its docstring, [_n_air] stays between 1.00027 and
    1.00035. *)
Theorem n_air_range (x : Q) :
  184 <= x -> 1.00027 <= _n_air x /\ _n_air x <= 1.00035.
Proof. apply n_air_bounds. Qed.

Lemma n_air_range_witness : 1.00027 <= _n_air 185 /\ _n_air 185 <= 1.00035.
Proof. apply (n_air_range 185). vm_compute. discriminate. Defined.

(** X2.  From 184 nm upwards [_n_air] is strictly decreasing in the
    wavelength, and it varies by at most 3e-6 per nm. *)
Theorem n_air_strictly_decreasing (x y : Q) :
  184 <= x -> x < y ->
  _n_air y < _n_air x /\ _n_air x - _n_air y <= 0.000003 * (y - x).
Proof.
  intros Hx Hxy.
  destruct (n_air_lipschitz x y Hx ltac:(lra)) as [_ [Hl Hs]].
  specialize (Hs Hxy). split; lra.
Qed.

Lemma n_air_strictly_decreasing_witness :
  _n_air 1700 < _n_air 185 /\ _n_air 185 - _n_air 1700 <= 0.000003 * (1700 - 185).
Proof.
  apply (n_air_strictly_decreasing 185 1700).
  - vm_compute. discriminate.
  - vm_compute. reflexivity.
Defined.

(** X3.  For constants as [scipy.constants] gives them and a wavelength
    of the valid range, [nm2eV] is positive and the product of the energy
    and the wavelength lies between 1238.5 and 1239.7 eV nm. *)
Theorem nm2eV_times_wavelength (k : Constants) (x : Q) :
  positive_constants k -> hc_over_e_near k -> valid_wavelength x ->
  0 < nm2eV k x /\ 1238.5 <= nm2eV k x * x /\ nm2eV k x * x <= 1239.7.
Proof.
  intros Hpos [Hlo Hhi] [Hx Hx']. pose proof (numerator_pos k Hpos) as HN.
  destruct Hpos as [Hh [Hc He]].
  destruct (n_air_bounds x ltac:(lra)) as [Hn0 Hn1].
  assert (HD : 0 < e k * _n_air x * x).
  { assert (0 < _n_air x * x) by nra. nra. }
  assert (HE : 0 < nm2eV k x) by (unfold nm2eV; apply Qlt_shift_div_l; lra).
  assert (EE : nm2eV k x * x * (e k * _n_air x) == 1e9 * h k * c k).
  { unfold nm2eV. field. lra. }
  split; [exact HE|].
  set (N := 1e9 * h k * c k) in *. set (n := _n_air x) in *.
  set (p := nm2eV k x * x) in *.
  assert (Hp : 0 < p) by (unfold p; nra).
  clearbody N n p.
  assert (H1 : p * (e k * n) <= p * (e k * 1.00035)) by nra.
  assert (H2 : p * (e k * 1.00027) <= p * (e k * n)) by nra.
  assert (H3 : 1239 * e k <= p * 1.00035 * e k) by nra.
  assert (H4 : p * 1.00027 * e k <= 1240 * e k) by nra.
  split; nra.
Qed.

Lemma nm2eV_times_wavelength_witness :
  0 < nm2eV CODATA2018 500 /\ 1238.5 <= nm2eV CODATA2018 500 * 500
  /\ nm2eV CODATA2018 500 * 500 <= 1239.7.
Proof.
  apply (nm2eV_times_wavelength CODATA2018 500).
  - repeat split; vm_compute; reflexivity.
  - split; vm_compute; discriminate.
  - split; vm_compute; discriminate.
Defined.

(** X4.  [eV2nm] is strictly decreasing on the energies up to 6.7 eV
    (the energies whose approximate wavelength [1239.5 / eV] is at least
    185 nm). *)
Theorem eV2nm_decreasing (k : Constants) (x y : Q) :
  positive_constants k -> 0 < x -> x < y -> y <= 6.7 ->
  eV2nm k y < eV2nm k x.
Proof.
  intros Hpos Hx Hxy Hy. pose proof (numerator_pos k Hpos) as HN.
  destruct Hpos as [Hh [Hc He]]. unfold eV2nm. cbv zeta.
  assert (Hwy : 184 <= 1239.5 / y) by (apply Qle_shift_div_l; lra).
  assert (Hwxy : 1239.5 / y < 1239.5 / x) by (apply Qdiv_anti; lra).
  destruct (n_air_lipschitz (1239.5 / y) (1239.5 / x) Hwy ltac:(lra)) as [Hmono _].
  destruct (n_air_bounds (1239.5 / x) ltac:(lra)) as [Hn0 _].
  set (N := 1e9 * h k * c k) in *.
  set (n := _n_air (1239.5 / x)) in *. set (m := _n_air (1239.5 / y)) in *.
  clearbody N n m.
  assert (H1 : n * x < n * y) by nra.
  assert (H2 : n * y <= m * y) by nra.
  apply Qdiv_anti; [exact HN| |].
  - assert (0 < n * x) by nra. nra.
  - assert (e k * (n * x) < e k * (m * y)) by nra. nra.
Qed.

Lemma eV2nm_decreasing_witness : eV2nm CODATA2018 3 < eV2nm CODATA2018 2.
Proof.
  apply (eV2nm_decreasing CODATA2018 2 3).
  - repeat split; vm_compute; reflexivity.
  - vm_compute. reflexivity.
  - vm_compute. reflexivity.
  - vm_compute. discriminate.
Defined.

(** X5.  The axis [axis2eV] returns is in eV: converting it again raises
    the unit error. *)
Theorem axis2eV_twice_raises (k : Constants) (ax0 ax : Axis) (factor : Q) :
  axis2eV k ax0 = Ok (ax, factor) -> axis2eV k ax = Raise UnitError.
Proof.
  unfold axis2eV at 1.
  destruct (String.eqb (units ax0) "eV"); [discriminate|].
  destruct (String.eqb (units ax0) "µm"); intros [= <- _]; reflexivity.
Qed.

Lemma axis2eV_twice_raises_witness :
  axis2eV CODATA2018 (energy_axis (rev (map (nm2eV CODATA2018) [500; 600])))
  = Raise UnitError.
Proof.
  apply (axis2eV_twice_raises CODATA2018 (sample_axis [500; 600]) _ 1e6).
  reflexivity.
Defined.

Lemma data2eV_sample (k : Constants) (data out : list (list float64)) (factor : Q)
    (ax0 evaxis : list Q) (j i : nat) (row : list float64) (d : float64) :
  length ax0 = length evaxis ->
  data2eV k data factor ax0 evaxis = Some out ->
  data !! j = Some row -> length row = length evaxis -> row !! i = Some d ->
  exists wl ev orow,
    ax0 !! (length ax0 - 1 - i)%nat = Some wl /\ evaxis !! i = Some ev /\
    out !! j = Some orow /\ orow !! i = Some (jacobian k factor d wl ev).
Proof.
  intros Hlen Hout Hj Hrow Hi. unfold data2eV in Hout.
  rewrite broadcast2_same_length in Hout
    by (rewrite length_map, length_rev; exact Hlen).
  set (den := zip_with (fun n ev => e k * n * ev ^ 2) (map _n_air (rev ax0)) evaxis) in *.
  assert (Hden : length den = length evaxis).
  { unfold den. rewrite length_zip_with, length_map, length_rev. lia. }
  assert (Hilt : (i < length row)%nat) by (eapply lookup_lt_Some; exact Hi).
  destruct (lookup_lt_is_Some_2 ax0 (length ax0 - 1 - i)%nat) as [wl Hwl]; [lia|].
  destruct (lookup_lt_is_Some_2 evaxis i) as [ev Hev]; [lia|].
  destruct (mapM_lookup _ data out j row Hout Hj) as [orow [Horow Hg]].
  exists wl, ev, orow. repeat split; try assumption.
  rewrite broadcast2_same_length in Hg by lia.
  injection Hg as <-. rewrite lookup_zip_with, Hi. simpl.
  unfold den. rewrite lookup_zip_with, list_lookup_fmap.
  rewrite (rev_lookup_mirror ax0 i wl) by (try lia; exact Hwl). simpl.
  rewrite Hev. reflexivity.
Qed.

Lemma fdiv_nonzero (a b : Q) : ~ b == 0 -> fdiv (Num a) (Num b) = Num (a / b).
Proof.
  intros Hb. simpl. destruct (Qeq_bool b 0) eqn:E; [|reflexivity].
  apply Qeq_bool_iff in E. contradiction.
Qed.

(** X6.  The two conversions composed, for an axis in nm whose samples
    lie in the valid range and data rows of the length of the axis:
    [data2eV], given the factor and the energy axis that [axis2eV]
    returns, succeeds and keeps the shape; a NaN stays a NaN, and a
    number [d] at position [i] becomes [d * 1e6 * wl / (1e9 * nm2eV wl)],
    with [wl] the sample [n - 1 - i] of the wavelength axis: the
    refractive index cancels and the correction is the wavelength over
    the energy. *)
Theorem data2eV_after_axis2eV (k : Constants) (ax0 : Axis) (data : list (list float64)) :
  positive_constants k ->
  units ax0 <> "eV"%string -> units ax0 <> "µm"%string ->
  Forall valid_wavelength (axis_values ax0) ->
  Forall (fun row => length row = axis_size ax0) data ->
  exists ax factor out,
    axis2eV k ax0 = Ok (ax, factor) /\
    data2eV k data factor (axis_values ax0) (axis_values ax) = Some out /\
    length out = length data /\
    forall j i row, data !! j = Some row ->
      exists orow, out !! j = Some orow /\ length orow = length row /\
        (row !! i = Some NaN -> orow !! i = Some NaN) /\
        (forall d, row !! i = Some (Num d) ->
           exists wl q,
             axis_values ax0 !! (axis_size ax0 - 1 - i)%nat = Some wl /\
             orow !! i = Some (Num q) /\
             q == d * 1e6 * wl / (1e9 * nm2eV k wl)).
Proof.
  intros Hpos HeV Hum Hrange Hrows.
  set (l := axis_values ax0) in *.
  set (evaxis := rev (map (nm2eV k) l)).
  assert (Hax : axis2eV k ax0 = Ok (energy_axis evaxis, 1e6)).
  { unfold axis2eV. fold l.
    destruct (String.eqb_spec (units ax0) "eV") as [H|_]; [contradiction|].
    destruct (String.eqb_spec (units ax0) "µm") as [H|_]; [contradiction|].
    reflexivity. }
  assert (Hlen : length l = length evaxis).
  { unfold evaxis. rewrite length_rev, length_map. reflexivity. }
  assert (Hrows' : Forall (fun row => length row = length evaxis) data).
  { eapply Forall_impl; [exact Hrows|]. intros row Hrow. simpl in Hrow.
    rewrite <- Hlen. exact Hrow. }
  assert (Htot : exists out, data2eV k data 1e6 l evaxis = Some out).
  { unfold data2eV.
    rewrite broadcast2_same_length by (rewrite length_map, length_rev; exact Hlen).
    apply mapM_total. eapply Forall_impl; [exact Hrows'|].
    intros row Hrow. simpl in Hrow.
    rewrite broadcast2_same_length.
    - eexists; reflexivity.
    - rewrite length_zip_with, length_map, length_rev. lia. }
  destruct Htot as [out Hout].
  exists (energy_axis evaxis), 1e6, out.
  split; [exact Hax|]. split; [exact Hout|].
  assert (Hlo : length out = length data).
  { unfold data2eV in Hout.
    destruct (broadcast2 _ _ _); [|discriminate].
    eapply mapM_length. exact Hout. }
  split; [exact Hlo|].
  intros j i row Hj.
  assert (Hrow : length row = length evaxis).
  { rewrite Forall_forall in Hrows'. apply Hrows'.
    eapply list_elem_of_lookup_2. exact Hj. }
  destruct (lookup_lt_is_Some_2 out j) as [orow Horow].
  { rewrite Hlo. eapply lookup_lt_Some. exact Hj. }
  exists orow. split; [exact Horow|].
  assert (Hsample : forall d, row !! i = Some d ->
            exists wl, l !! (length l - 1 - i)%nat = Some wl /\
                       orow !! i = Some (jacobian k 1e6 d wl (nm2eV k wl))).
  { intros d Hi.
    destruct (data2eV_sample k data out 1e6 l evaxis j i row d Hlen Hout Hj Hrow Hi)
      as [wl [ev [orow' [Hwl [Hev [Horow' Hval]]]]]].
    rewrite Horow in Horow'. injection Horow' as <-.
    assert (Hilt : (i < length l)%nat).
    { rewrite Hlen, <- Hrow. eapply lookup_lt_Some. exact Hi. }
    assert (Hev' : evaxis !! i = Some (nm2eV k wl)).
    { unfold evaxis. apply rev_lookup_mirror; rewrite length_map; [exact Hilt|].
      rewrite list_lookup_fmap, Hwl. reflexivity. }
    rewrite Hev in Hev'. injection Hev' as ->.
    exists wl. split; assumption. }
  split; [|split].
  - unfold data2eV in Hout.
    rewrite broadcast2_same_length in Hout
      by (rewrite length_map, length_rev; exact Hlen).
    destruct (mapM_lookup _ data out j row Hout Hj) as [orow' [Horow' Hg]].
    rewrite Horow in Horow'. injection Horow' as <-.
    rewrite broadcast2_same_length in Hg
      by (rewrite length_zip_with, length_map, length_rev; lia).
    injection Hg as <-. rewrite length_zip_with, length_zip_with, length_map, length_rev.
    lia.
  - intros Hi. destruct (Hsample NaN Hi) as [wl [_ Hval]]. exact Hval.
  - intros d Hi. destruct (Hsample (Num d) Hi) as [wl [Hwl Hval]].
    assert (Hv : valid_wavelength wl).
    { eapply Forall_lookup_1; [exact Hrange|exact Hwl]. }
    destruct Hv as [Hv0 Hv1].
    pose proof (numerator_pos k Hpos) as HN.
    destruct Hpos as [Hh [Hc He]].
    destruct (n_air_bounds wl ltac:(lra)) as [Hn0 _].
    assert (HD : 0 < e k * _n_air wl * wl).
    { assert (0 < _n_air wl * wl) by nra. nra. }
    assert (HE : 0 < nm2eV k wl) by (unfold nm2eV; apply Qlt_shift_div_l; lra).
    assert (Hden : 0 < e k * _n_air wl * nm2eV k wl ^ 2).
    { rewrite Qpow2. assert (0 < e k * _n_air wl) by nra.
      assert (0 < nm2eV k wl * nm2eV k wl) by nra. nra. }
    exists wl. eexists. split; [exact Hwl|]. split.
    + rewrite Hval. unfold jacobian. cbn [fmul]. apply f_equal.
      apply fdiv_nonzero. lra.
    + unfold nm2eV. field. repeat split; first [lra | discriminate].
Qed.

Lemma data2eV_after_axis2eV_witness :
  exists ax factor out,
    axis2eV CODATA2018 (sample_axis [500; 600]) = Ok (ax, factor) /\
    data2eV CODATA2018 [[Num 1; NaN]] factor [500; 600] (axis_values ax) = Some out /\
    length out = 1%nat.
Proof.
  destruct (data2eV_after_axis2eV CODATA2018 (sample_axis [500; 600]) [[Num 1; NaN]])
    as [ax [factor [out [H1 [H2 [H3 _]]]]]].
  - repeat split; vm_compute; reflexivity.
  - simpl. discriminate.
  - simpl. discriminate.
  - repeat constructor; vm_compute; discriminate.
  - repeat constructor.
  - exists ax, factor, out. split; [exact H1|]. split; [exact H2|exact H3].
Defined.

(* ================================================================== *)
(** * Further properties of [join_spectra] *)

(** X7.  On a store in which the list refers to the signals [vals],
    [join_spectra] returns what the fold computes on the values: when the
    fold succeeds, the result is a new object, none of the inputs, which
    holds the joined signal; when it fails, the same exception is
    raised. *)
Theorem join_spectra_value
    (value2index : Axis -> Q -> option Z)
    (interp1d : string -> list Q -> list (list float64) -> list Q
                -> option (list (list float64)))
    (spectra : list nat) (vals : list Signal1D) (r : Z) (average : bool)
    (kind : string) (hp : list Signal1D) :
  refers hp spectra vals ->
  let out := join_spectra value2index interp1d spectra r average kind hp in
  match join_value value2index interp1d vals r average kind with
  | Ok v => snd out = Ok (length hp) /\ fst out !! length hp = Some v /\
            Forall (fun l => l <> length hp) spectra
  | Raise x => snd out = Raise x
  end.
Proof.
  intros Hr out.
  destruct (join_spectra_run value2index interp1d spectra vals r average kind hp Hr)
    as [hp' [res [Hrun [_ [Hval _]]]]].
  subst out. rewrite Hrun. cbn [fst snd].
  destruct (join_value value2index interp1d vals r average kind) as [v|x]; [|exact Hval].
  destruct Hval as [H1 H2]. split; [exact H1|]. split; [exact H2|].
  clear - Hr. induction Hr as [|l s ls ss Hl _ IH]; constructor; [|exact IH].
  apply lookup_lt_Some in Hl. lia.
Qed.

Lemma join_spectra_value_witness :
  let A := constant_signal (uniform_axis 0 1 11) 10 in
  let B := constant_signal (uniform_axis 6 1 11) 20 in
  snd (join_spectra value2index_nearest interp1d_ref [0%nat; 1%nat] 1 false "slinear"
                    [A; B]) = Ok 2%nat.
Proof.
  intros A B.
  pose proof (join_spectra_value value2index_nearest interp1d_ref [0%nat; 1%nat]
                [A; B] 1 false "slinear" [A; B]) as H.
  eassert (Hv : join_value value2index_nearest interp1d_ref [A; B] 1 false "slinear"
                = Ok _) by (vm_compute; reflexivity).
  rewrite Hv in H. apply H. repeat constructor.
Defined.

Ltac orelse_ok H :=
  repeat match type of H with
    | rbind (orelse ?o ?x) _ = Ok _ =>
        let E := fresh "E" in
        destruct o eqn:E; cbn [orelse rbind] in H; [|discriminate H]
    | (if ?b then _ else _) = Ok _ =>
        let E := fresh "E" in destruct b eqn:E
    | Raise _ = Ok _ => discriminate H
    end.

Lemma set_kind_attributes (ax : Axis) (kd : AxisKind) :
  name (set_kind ax kd) = name ax /\ units (set_kind ax kd) = units ax
  /\ navigate (set_kind ax kd) = navigate ax.
Proof. repeat split. Qed.

Lemma set_size_attributes (ax : Axis) (n : Z) :
  name (set_size ax n) = name ax /\ units (set_size ax n) = units ax
  /\ navigate (set_size ax n) = navigate ax.
Proof. unfold set_size. destruct (kind_of ax); repeat split. Qed.

Lemma convert_attributes (ax : Axis) :
  name (convert_to_non_uniform_axis ax) = name ax
  /\ units (convert_to_non_uniform_axis ax) = units ax
  /\ navigate (convert_to_non_uniform_axis ax) = navigate ax.
Proof. unfold convert_to_non_uniform_axis. destruct (kind_of ax); repeat split. Qed.

Section StepAttributes.
Variable value2index : Axis -> Q -> option Z.
Variable interp1d :
  string -> list Q -> list (list float64) -> list Q -> option (list (list float64)).

Lemma merge_attributes S1 S2 out ind1 ind2 r average kind :
  merge value2index interp1d S1 S2 ind1 ind2 r average kind = Ok out ->
  same_attributes S1 out.
Proof.
  unfold merge, same_attributes. destruct (is_uniform (signal_axis S1)).
  - unfold merge_uniform. intros H. orelse_ok H;
      injection H as <-; cbn [metadata signal_axis];
      destruct (set_size_attributes (signal_axis S1)
                  (Z.of_nat (length (py_slice None (Some ind1)
                                       (axis_values (signal_axis S1))))
                   + Qfloor ((q - q0) / axis_scale (signal_axis S1))))
        as [Hn [Hu Hv]]; auto.
  - unfold merge_nonuniform. intros H. orelse_ok H;
      injection H as <-; cbn [metadata signal_axis];
      destruct (convert_attributes (signal_axis S1)) as [Hn [Hu Hv]];
      unfold set_axis, set_kind; cbn [name units navigate]; auto.
Qed.

Lemma join_step_attributes S1 S2 out r average kind :
  join_step value2index interp1d S1 S2 r average kind = Ok out ->
  same_attributes S1 out.
Proof.
  unfold join_step. intros H.
  destruct (seam value2index (signal_axis S1) (signal_axis S2) r) as [[ind1 ind2]|x];
    [|discriminate].
  cbn [rbind] in H.
  destruct (scaling_factor S1 S2 ind1 ind2 r) as [factor|x]; [|discriminate].
  cbn [rbind] in H.
  destruct (scale_signal S2 factor) as [S2'|x]; [|discriminate].
  cbn [rbind] in H. eapply merge_attributes. exact H.
Qed.

Lemma join_fold_attributes rest : forall S1 out r average kind,
  join_fold value2index interp1d S1 rest r average kind = Ok out ->
  same_attributes S1 out.
Proof.
  induction rest as [|s rest IH]; intros S1 out r average kind; cbn [join_fold].
  - intros [= <-]. repeat split.
  - destruct (join_step value2index interp1d S1 s r average kind) as [S1'|x] eqn:Hs;
      [|discriminate].
    cbn [rbind]. intros H. apply IH in H. apply join_step_attributes in Hs.
    unfold same_attributes in *. intuition congruence.
Qed.
End StepAttributes.

(** X9.  A successful join takes everything but the samples from the
    first spectrum: the metadata of the result and the name, the units
    and the navigation flag of its signal axis are those of the first
    signal of the list. *)
Theorem join_value_first_attributes
    (value2index : Axis -> Q -> option Z)
    (interp1d : string -> list Q -> list (list float64) -> list Q
                -> option (list (list float64)))
    (s0 : Signal1D) (rest : list Signal1D) (r : Z) (average : bool) (kind : string)
    (out : Signal1D) :
  join_value value2index interp1d (s0 :: rest) r average kind = Ok out ->
  same_attributes s0 out.
Proof.
  cbn [join_value]. destruct (overlap_checks s0 rest) as [[]|x]; [|discriminate].
  cbn [rbind]. apply join_fold_attributes.
Qed.

Lemma join_value_first_attributes_witness :
  let A := {| signal_axis := uniform_axis 0 1 11; data := [replicate 11 (Num 10)];
              metadata := "first" |} in
  let B := {| signal_axis := sample_axis (uniform_values 6 1 11);
              data := [replicate 11 (Num 20)]; metadata := "second" |} in
  exists out,
    join_value value2index_nearest interp1d_ref [A; B] 1 false "slinear" = Ok out /\
    metadata out = "first"%string.
Proof.
  intros A B.
  eassert (Hv : join_value value2index_nearest interp1d_ref [A; B] 1 false "slinear"
                = Ok _) by (vm_compute; reflexivity).
  eexists. split; [exact Hv|].
  apply (join_value_first_attributes value2index_nearest interp1d_ref A [B] 1 false
           "slinear" _ Hv).
Defined.

(* ================================================================== *)
(** * Further properties of the scaling factor *)

Lemma Qsum_constant (f : Q) (qs : list Q) :
  Forall (fun q => q == f) qs -> Qsum qs == f * inject_Z (Z.of_nat (length qs)).
Proof.
  induction 1 as [|q qs Hq _ IH].
  - simpl. ring.
  - cbn [Qsum fold_right length]. fold (Qsum qs). rewrite IH, Hq.
    rewrite Nat2Z.inj_succ. unfold Z.succ. rewrite inject_Z_plus. ring.
Qed.

Lemma ratio_of_gain (f : Q) (a b : list float64) :
  Forall2 (gain_related f) a b ->
  exists qs, nan_free (zip_with ratio_or_nan a b) = qs /\
             length qs = length b /\ Forall (fun q => q == f) qs.
Proof.
  induction 1 as [|x y a b Hxy _ [qs [Hqs [Hlen Hall]]]].
  - exists []. repeat split. constructor.
  - destruct Hxy as [p [q [-> [-> [Hq Hp]]]]].
    exists (p / q :: qs). split; [|split].
    + cbn [zip_with]. unfold ratio_or_nan at 1, exactly_zero.
      destruct (Qeq_bool q 0) eqn:E.
      * apply Qeq_bool_iff in E. contradiction.
      * rewrite fdiv_nonzero by exact Hq. unfold nan_free in *. cbn [omap list_omap].
        rewrite Hqs. reflexivity.
    + simpl. rewrite Hlen. reflexivity.
    + constructor; [|exact Hall]. rewrite Hp. field. exact Hq.
Qed.

Lemma nanmean_of_gain (f : Q) (a b : list float64) :
  Forall2 (gain_related f) a b -> b <> [] ->
  feq (Num f) (nanmean_row (zip_with ratio_or_nan a b)).
Proof.
  intros H Hb. destruct (ratio_of_gain f a b H) as [qs [Hqs [Hlen Hall]]].
  unfold nanmean_row. rewrite Hqs.
  destruct qs as [|q qs'].
  - destruct b; [congruence|discriminate Hlen].
  - cbn [feq]. rewrite (Qsum_constant f _ Hall).
    assert (Hn : ~ inject_Z (Z.of_nat (length (q :: qs'))) == 0).
    { intros Heq. unfold Qeq in Heq. simpl in Heq. lia. }
    field. exact Hn.
Qed.

(** X11.  The scaling factor recovers a gain.  If, in the two windows
    [A[ind1-r:ind1+r]] and [B[ind2-r:ind2+r]], every sample of [A] is [f]
    times the sample of [B], a number other than zero, and the windows are
    not empty, then the scaling factor of every navigation pixel is
    [f]. *)
Theorem scaling_factor_recovers_gain (S1 S2 : Signal1D) (ind1 ind2 r : Z) (f : Q) :
  Forall2 (Forall2 (gain_related f))
          (isig (Some (ind1 - r)%Z) (Some (ind1 + r)%Z) (data S1))
          (isig (Some (ind2 - r)%Z) (Some (ind2 + r)%Z) (data S2)) ->
  Forall (fun row => row <> [])
         (isig (Some (ind2 - r)%Z) (Some (ind2 + r)%Z) (data S2)) ->
  exists factor,
    scaling_factor S1 S2 ind1 ind2 r = Ok factor /\
    length factor = length (data S2) /\
    Forall (feq (Num f)) factor.
Proof.
  intros Hrel Hne. rewrite scaling_factor_spec.
  set (wa := isig (Some (ind1 - r)%Z) (Some (ind1 + r)%Z) (data S1)) in *.
  set (wb := isig (Some (ind2 - r)%Z) (Some (ind2 + r)%Z) (data S2)) in *.
  assert (Hlen : length wb = length (data S2)) by (unfold wb, isig; apply length_map).
  rewrite broadcast_window_same_shape.
  2:{ unfold same_shape. eapply Forall2_impl; [exact Hrel|].
      intros x y Hxy. eapply Forall2_length. exact Hxy. }
  cbn [orelse rbind]. eexists. split; [reflexivity|]. rewrite <- Hlen. clearbody wa wb.
  clear Hlen. unfold spec_factor. split.
  - rewrite length_map, length_zip_with. apply Forall2_length in Hrel. lia.
  - induction Hrel as [|a b wa wb Hab _ IH]; [constructor|].
    inversion Hne as [|? ? Hb Hne']; subst. cbn [zip_with map].
    constructor; [|apply IH; exact Hne'].
    apply nanmean_of_gain; assumption.
Qed.

Lemma scaling_factor_recovers_gain_witness :
  let A := {| signal_axis := uniform_axis 0 1 3; data := [[Num 2; Num 4; Num 6]];
              metadata := "" |} in
  let B := {| signal_axis := uniform_axis 0 1 3; data := [[Num 1; Num 2; Num 3]];
              metadata := "" |} in
  exists factor,
    scaling_factor A B 1 1 1 = Ok factor /\ length factor = 1%nat /\
    Forall (feq (Num 2)) factor.
Proof.
  intros A B. apply (scaling_factor_recovers_gain A B 1 1 1 2).
  - constructor; [|constructor].
    constructor; [exists 2, 1; repeat split; discriminate|].
    constructor; [exists 4, 2; repeat split; discriminate|].
    constructor.
  - constructor; [discriminate|constructor].
Defined.





(* ================================================================== *)
(** * Axes that merely touch *)

Lemma Qlt_bool_proper (x x' y y' : Q) :
  x == x' -> y == y' -> Qlt_bool x y = Qlt_bool x' y'.
Proof.
  intros Hx Hy.
  destruct (Qlt_bool x y) eqn:E1, (Qlt_bool x' y') eqn:E2; try reflexivity.
  - apply Qlt_bool_iff in E1. rewrite Hx, Hy in E1. apply Qlt_bool_iff in E1. congruence.
  - apply Qlt_bool_iff in E2. rewrite <- Hx, <- Hy in E2. apply Qlt_bool_iff in E2.
    congruence.
Qed.

Lemma argmin_from_proper (l : list Q) : forall u v i best d d',
  u == v -> d == d' -> argmin_from u i best d l = argmin_from v i best d' l.
Proof.
  induction l as [|x l IH]; intros u v i best d d' Huv Hd; [reflexivity|].
  cbn [argmin_from].
  assert (Habs : Qabs (x - u) == Qabs (x - v)) by (rewrite Huv; reflexivity).
  rewrite (Qlt_bool_proper _ _ _ _ Habs Hd).
  destruct (Qlt_bool (Qabs (x - v)) d'); apply IH; assumption.
Qed.

Lemma value2index_nearest_proper (ax : Axis) (u v : Q) :
  u == v -> value2index_nearest ax u = value2index_nearest ax v.
Proof.
  intros Huv. unfold value2index_nearest. destruct (axis_values ax) as [|x l]; [reflexivity|].
  f_equal. f_equal. apply argmin_from_proper; [exact Huv|].
  rewrite Huv. reflexivity.
Qed.

(** X13.  Axes that merely touch.  When the maximum of the accumulator
    axis equals the minimum of the next axis, the pair passes the overlap
    test, and the centre of the overlap is that maximum; with an index
    lookup that gives equal values the same index, no step with [r >= 0]
    succeeds: whatever is found before the test on [r], that test
    fails. *)
Theorem join_step_touching_axes
    (value2index : Axis -> Q -> option Z)
    (interp1d : string -> list Q -> list (list float64) -> list Q
                -> option (list (list float64)))
    (S1 S2 : Signal1D) (r : Z) (average : bool) (kind : string) (omax omin : Q) :
  np_max (axis_values (signal_axis S1)) = Some omax ->
  np_min (axis_values (signal_axis S2)) = Some omin ->
  omax == omin ->
  (forall u v, u == v -> value2index (signal_axis S1) u = value2index (signal_axis S1) v) ->
  (0 <= r)%Z ->
  overlap_checks S1 [S2] = Ok tt /\
  exists x, join_step value2index interp1d S1 S2 r average kind = Raise x /\
            (library_exn x \/ x = RangeError).
Proof.
  intros Hmax Hmin Heq Hproper Hr. split.
  - cbn [overlap_checks]. rewrite Hmax, Hmin. cbn [orelse rbind].
    destruct (Qlt_bool omax omin) eqn:E; [|reflexivity].
    apply Qlt_bool_iff in E. lra.
  - assert (Hc : (omax + omin) / 2 == omax) by (rewrite Heq; field).
    assert (Hseam : exists x, seam value2index (signal_axis S1) (signal_axis S2) r
                              = Raise x).
    { unfold seam. rewrite Hmax, Hmin. cbn [orelse rbind].
      rewrite (Hproper _ _ Hc).
      destruct (value2index (signal_axis S1) omax) as [imax|]; cbn [orelse rbind];
        [|eexists; reflexivity].
      destruct (value2index (signal_axis S2) ((omax + omin) / 2)) as [ind2|];
        cbn [orelse rbind]; [|eexists; reflexivity].
      destruct (py_index (axis_values (signal_axis S1)) imax) as [a1|];
        cbn [orelse rbind]; [|eexists; reflexivity].
      destruct (py_index (axis_values (signal_axis S2)) ind2) as [b2|];
        cbn [orelse rbind]; [|eexists; reflexivity].
      rewrite Z.sub_diag.
      destruct (Z.leb_spec 0 r) as [_|Hlt]; [eexists; reflexivity|lia]. }
    destruct Hseam as [x Hx]. exists x. split.
    + unfold join_step. rewrite Hx. reflexivity.
    + eapply seam_raise. exact Hx.
Qed.

Lemma join_step_touching_axes_witness :
  let A := constant_signal (uniform_axis 0 1 11) 10 in
  let B := constant_signal (uniform_axis 10 1 11) 20 in
  overlap_checks A [B] = Ok tt /\
  exists x, join_step value2index_nearest interp1d_ref A B 0 false "slinear" = Raise x
            /\ (library_exn x \/ x = RangeError).
Proof.
  intros A B.
  apply (join_step_touching_axes value2index_nearest interp1d_ref A B 0 false "slinear"
           10 10).
  - vm_compute. reflexivity.
  - vm_compute. reflexivity.
  - reflexivity.
  - intros u v Huv. apply value2index_nearest_proper. exact Huv.
  - lia.
Defined.

(* ================================================================== *)
(** * The shape on the uniform branch *)







(* ================================================================== *)
(** * The joined axis stays ascending *)

Lemma argmin_from_nearest (v : Q) (l : list Q) : forall pre best xb,
  pre !! best = Some xb ->
  (forall j x, pre !! j = Some x -> Qabs (xb - v) <= Qabs (x - v)) ->
  exists xk,
    (pre ++ l) !! argmin_from v (length pre) best (Qabs (xb - v)) l = Some xk /\
    forall j x, (pre ++ l) !! j = Some x -> Qabs (xk - v) <= Qabs (x - v).
Proof.
  induction l as [|x l IH]; intros pre best xb Hbest Hmin.
  - cbn [argmin_from]. rewrite app_nil_r. exists xb. split; assumption.
  - cbn [argmin_from].
    assert (Happ : pre ++ x :: l = (pre ++ [x]) ++ l) by (rewrite <- app_assoc; reflexivity).
    assert (Hlen : S (length pre) = length (pre ++ [x]))
      by (rewrite length_app; simpl; lia).
    rewrite Happ, Hlen.
    destruct (Qlt_bool (Qabs (x - v)) (Qabs (xb - v))) eqn:E.
    + apply Qlt_bool_iff in E.
      apply (IH (pre ++ [x]) (length pre) x).
      * rewrite lookup_app_r by lia. rewrite Nat.sub_diag. reflexivity.
      * intros j y Hj. apply lookup_app_Some in Hj.
        destruct Hj as [Hj|[_ Hj]].
        -- specialize (Hmin j y Hj). lra.
        -- destruct (j - length pre)%nat; [|discriminate Hj].
           injection Hj as <-. lra.
    + apply IH.
      * apply lookup_app_l_Some. exact Hbest.
      * intros j y Hj. apply lookup_app_Some in Hj.
        destruct Hj as [Hj|[_ Hj]].
        -- apply Hmin with j. exact Hj.
        -- destruct (j - length pre)%nat; [|discriminate Hj].
           injection Hj as <-.
           destruct (Qlt_le_dec (Qabs (x - v)) (Qabs (xb - v))) as [Hlt|Hle]; [|exact Hle].
           apply Qlt_bool_iff in Hlt. congruence.
Qed.

(** The index [value2index_nearest] returns is an index of the axis, and
    no sample is nearer to the value than the sample at that index. *)
Lemma value2index_nearest_spec (ax : Axis) (v : Q) (i : Z) :
  value2index_nearest ax v = Some i ->
  exists k xk,
    i = Z.of_nat k /\ axis_values ax !! k = Some xk /\
    forall j x, axis_values ax !! j = Some x -> Qabs (xk - v) <= Qabs (x - v).
Proof.
  unfold value2index_nearest. destruct (axis_values ax) as [|x l]; [discriminate|].
  intros [= <-].
  destruct (argmin_from_nearest v l [x] 0%nat x eq_refl) as [xk [Hk Hmin]].
  - intros [|j] y Hj; [|discriminate Hj]. injection Hj as <-. lra.
  - eexists. exists xk. split; [reflexivity|]. split; [exact Hk|exact Hmin].
Qed.

Lemma py_index_nat {A} (l : list A) (k : nat) (x : A) :
  l !! k = Some x -> py_index l (Z.of_nat k) = Some x.
Proof.
  intros H. pose proof (lookup_lt_Some _ _ _ H) as Hlt. unfold py_index. cbv zeta.
  destruct (Z.leb_spec 0 (Z.of_nat k)); [|lia].
  destruct (Z.ltb_spec (Z.of_nat k) (Z.of_nat (length l))); [|lia].
  cbn [andb]. rewrite Nat2Z.id. exact H.
Qed.

Lemma py_slice_take {A} (i : Z) (l : list A) :
  (0 <= i)%Z -> py_slice None (Some i) l = take (Z.to_nat i) l.
Proof.
  intros Hi. unfold py_slice. cbv zeta. cbn [slice_bound].
  destruct (Z.ltb_spec i 0) as [H|_]; [lia|].
  rewrite drop_0.
  destruct (Z.le_gt_cases i (Z.of_nat (length l))) as [Hle|Hgt].
  - f_equal. lia.
  - rewrite !take_ge by lia. reflexivity.
Qed.

Lemma py_slice_drop {A} (i : Z) (l : list A) :
  (0 <= i)%Z -> py_slice (Some i) None l = drop (Z.to_nat i) l.
Proof.
  intros Hi. unfold py_slice. cbv zeta. cbn [slice_bound].
  destruct (Z.ltb_spec i 0) as [H|_]; [lia|].
  rewrite take_ge by (rewrite length_drop; lia).
  destruct (Z.le_gt_cases i (Z.of_nat (length l))) as [Hle|Hgt].
  - f_equal. lia.
  - rewrite !drop_ge by lia. reflexivity.
Qed.

Lemma ascending_le (l : list Q) (i j : nat) (x y : Q) :
  ascending l -> (i <= j)%nat -> l !! i = Some x -> l !! j = Some y -> x <= y.
Proof.
  intros Hl Hij Hi Hj. destruct (Nat.eq_dec i j) as [->|Hne].
  - rewrite Hi in Hj. injection Hj as <-. lra.
  - apply Qlt_le_weak. apply (Hl i j); [lia|assumption|assumption].
Qed.

Lemma ascending_take_drop (a b : list Q) (k1 k2 : nat) :
  ascending a -> ascending b ->
  (forall i j x y, (i < k1)%nat -> (k2 <= j)%nat ->
                   a !! i = Some x -> b !! j = Some y -> x < y) ->
  ascending (take k1 a ++ drop k2 b).
Proof.
  intros Ha Hb Hcross i j x y Hij Hi Hj.
  apply lookup_app_Some in Hi. apply lookup_app_Some in Hj.
  destruct Hi as [Hi|[Hil Hi]], Hj as [Hj|[Hjl Hj]].
  - apply lookup_take_Some in Hi. apply lookup_take_Some in Hj.
    apply (Ha i j); [exact Hij|apply Hi|apply Hj].
  - apply lookup_take_Some in Hi. rewrite lookup_drop in Hj.
    apply (Hcross i (k2 + (j - length (take k1 a)))%nat); [apply Hi|lia|apply Hi|exact Hj].
  - apply lookup_lt_Some in Hj. lia.
  - rewrite lookup_drop in Hi, Hj.
    apply (Hb (k2 + (i - length (take k1 a)))%nat (k2 + (j - length (take k1 a)))%nat);
      [lia|exact Hi|exact Hj].
Qed.

(** X15.  The joined axis stays ascending.  With the nearest-sample
    index lookup, a successful step on an accumulator axis given by its
    samples returns a strictly ascending axis whenever the two axes are
    strictly ascending: every sample kept from the accumulator lies below
    every sample kept from the next spectrum, with or without the
    advance of [ind2]. *)
Theorem join_step_nonuniform_ascending
    (interp1d : string -> list Q -> list (list float64) -> list Q
                -> option (list (list float64)))
    (S1 S2 out : Signal1D) (r : Z) (average : bool) (kind : string) :
  is_uniform (signal_axis S1) = false ->
  ascending (axis_values (signal_axis S1)) ->
  ascending (axis_values (signal_axis S2)) ->
  join_step value2index_nearest interp1d S1 S2 r average kind = Ok out ->
  ascending (axis_values (signal_axis out)).
Proof.
  intros Hnu HA HB H. unfold join_step in H.
  destruct (seam value2index_nearest (signal_axis S1) (signal_axis S2) r)
    as [[ind1 ind2']|x] eqn:Hseam; [|discriminate].
  cbn [rbind] in H.
  destruct (scaling_factor S1 S2 ind1 ind2' r) as [factor|x]; [|discriminate].
  cbn [rbind] in H.
  destruct (scale_signal S2 factor) as [S2'|x] eqn:Hs; [|discriminate].
  cbn [rbind] in H. unfold merge in H. rewrite Hnu in H.
  apply merge_nonuniform_axis in H. rewrite (scale_signal_axis _ _ _ Hs) in H.
  rewrite H. clear H Hs.
  set (A := axis_values (signal_axis S1)) in *.
  set (B := axis_values (signal_axis S2)) in *.
  unfold seam in Hseam. fold A B in Hseam.
  destruct (np_max A) as [omax|]; cbn [orelse rbind] in Hseam; [|discriminate].
  destruct (np_min B) as [omin|]; cbn [orelse rbind] in Hseam; [|discriminate].
  set (c := (omax + omin) / 2) in *.
  destruct (value2index_nearest (signal_axis S1) c) as [i1|] eqn:H1;
    cbn [orelse rbind] in Hseam; [|discriminate].
  destruct (value2index_nearest (signal_axis S2) c) as [i2|] eqn:H2;
    cbn [orelse rbind] in Hseam; [|discriminate].
  destruct (py_index A i1) as [a1|] eqn:Ha1; cbn [orelse rbind] in Hseam; [|discriminate].
  destruct (py_index B i2) as [b2|] eqn:Hb2; cbn [orelse rbind] in Hseam; [|discriminate].
  destruct (value2index_nearest (signal_axis S1) omax) as [imax|];
    cbn [orelse rbind] in Hseam; [|discriminate].
  destruct (imax - i1 <=? r)%Z; [discriminate|].
  injection Hseam as <- <-.
  apply value2index_nearest_spec in H1. destruct H1 as [k1 [x1 [-> [Hk1 Hn1]]]].
  apply value2index_nearest_spec in H2. destruct H2 as [k2 [x2 [-> [Hk2 Hn2]]]].
  fold A in Hk1, Hn1. fold B in Hk2, Hn2.
  rewrite (py_index_nat A k1 x1 Hk1) in Ha1. injection Ha1 as ->.
  rewrite (py_index_nat B k2 x2 Hk2) in Hb2. injection Hb2 as ->.
  rewrite py_slice_take by lia. rewrite Nat2Z.id.
  destruct (Qlt_bool b2 a1) eqn:Hadj.
  - apply Qlt_bool_iff in Hadj.
    rewrite py_slice_drop by lia.
    replace (Z.to_nat (Z.of_nat k2 + 1)) with (S k2) by lia.
    apply ascending_take_drop; [exact HA|exact HB|].
    intros i j x y Hi Hj Hx Hy.
    assert (Hxa : x < a1) by (apply (HA i k1); assumption).
    assert (Hby : b2 < y) by (apply (HB k2 j); [lia|assumption|assumption]).
    assert (Hxc : x < c).
    { destruct (Qlt_le_dec x c) as [Hlt|Hle]; [exact Hlt|exfalso].
      pose proof (Hn1 i x Hx) as Hn.
      rewrite (Qabs_pos (a1 - c)) in Hn by lra.
      rewrite (Qabs_pos (x - c)) in Hn by lra. lra. }
    assert (Hcy : c < y).
    { destruct (Qlt_le_dec c y) as [Hlt|Hle]; [exact Hlt|exfalso].
      pose proof (Hn2 j y Hy) as Hn.
      rewrite (Qabs_neg (b2 - c)) in Hn by lra.
      rewrite (Qabs_neg (y - c)) in Hn by lra. lra. }
    lra.
  - assert (Hle : a1 <= b2).
    { destruct (Qlt_le_dec b2 a1) as [Hlt|Hle]; [|exact Hle].
      apply Qlt_bool_iff in Hlt. congruence. }
    rewrite py_slice_drop by lia. rewrite Nat2Z.id.
    apply ascending_take_drop; [exact HA|exact HB|].
    intros i j x y Hi Hj Hx Hy.
    assert (Hxa : x < a1) by (apply (HA i k1); assumption).
    assert (Hby : b2 <= y) by (apply (ascending_le B k2 j); assumption).
    lra.
Qed.

Lemma join_step_nonuniform_ascending_witness :
  let A := constant_signal (sample_axis [1; 2; 3; 4]) 1 in
  let B := constant_signal (sample_axis [2.5; 3.5; 5]) 2 in
  exists out,
    join_step value2index_nearest interp1d_ref A B 0 false "slinear" = Ok out /\
    ascending (axis_values (signal_axis out)).
Proof.
  intros A B.
  eassert (Hv : join_step value2index_nearest interp1d_ref A B 0 false "slinear"
                = Ok _) by (vm_compute; reflexivity).
  eexists. split; [exact Hv|].
  apply (join_step_nonuniform_ascending interp1d_ref A B _ 0 false "slinear");
    [reflexivity| | |exact Hv].
  - intros [|[|[|[|i]]]] [|[|[|[|j]]]] x y Hij Hi Hj; simpl in Hi, Hj;
      try lia; try discriminate;
      injection Hi as <-; injection Hj as <-; vm_compute; reflexivity.
  - intros [|[|[|i]]] [|[|[|j]]] x y Hij Hi Hj; simpl in Hi, Hj;
      try lia; try discriminate;
      injection Hi as <-; injection Hj as <-; vm_compute; reflexivity.
Defined.

(* ================================================================== *)
(** * The round trip from the energy side *)

(** X16.  The round trip that starts from an energy.  For constants as
    [scipy.constants] gives them and an energy [x] up to 6.7 eV,
    [nm2eV (eV2nm x)] differs from [x] by at most one part in ten
    thousand. *)
Theorem nm2eV_eV2nm_approximate (k : Constants) (x : Q) :
  positive_constants k -> hc_over_e_near k ->
  0 < x -> x <= 6.7 ->
  Qabs (nm2eV k (eV2nm k x) - x) <= 0.0001 * x.
Proof.
  intros Hpos [Hlo Hhi] Hx Hx'. pose proof (numerator_pos k Hpos) as HN.
  destruct Hpos as [Hh [Hc He]].
  assert (Hw0 : 184 <= 1239.5 / x) by (apply Qle_shift_div_l; lra).
  destruct (n_air_bounds _ Hw0) as [Hn0 Hn0'].
  assert (HD0 : 0 < e k * _n_air (1239.5 / x) * x).
  { assert (0 < _n_air (1239.5 / x) * x) by nra. nra. }
  assert (EL : eV2nm k x * (e k * _n_air (1239.5 / x) * x) == 1e9 * h k * c k).
  { unfold eV2nm. cbv zeta. field. lra. }
  assert (HL0 : 0 < eV2nm k x).
  { unfold eV2nm. cbv zeta. apply Qlt_shift_div_l; lra. }
  set (L := eV2nm k x) in *.
  set (n0 := _n_air (1239.5 / x)) in *.
  assert (HL : 184 <= L).
  { set (N := 1e9 * h k * c k) in *. clearbody N L n0.
    assert (H1 : 1239 * e k <= L * (n0 * x) * e k) by nra.
    assert (H2 : 1239 <= L * (n0 * x)) by nra.
    assert (H3 : n0 * x <= 1.00035 * 6.7) by nra.
    assert (H4 : L * (n0 * x) <= L * (1.00035 * 6.7)) by nra.
    lra. }
  destruct (n_air_bounds L HL) as [Hn1 Hn1'].
  assert (HD1 : 0 < e k * _n_air L * L).
  { assert (0 < _n_air L * L) by nra. nra. }
  assert (ER : nm2eV k L * (e k * _n_air L * L) == 1e9 * h k * c k).
  { unfold nm2eV. field. lra. }
  set (R := nm2eV k L) in *. set (n1 := _n_air L) in *.
  assert (E : R * n1 == n0 * x).
  { apply (Qmult_inj_l _ _ (e k * L)); [nra|].
    transitivity (R * (e k * n1 * L)); [ring|]. rewrite ER, <- EL. ring. }
  clearbody R n1 n0 L.
  assert (E2 : (R - x) * n1 == (n0 - n1) * x) by (rewrite <- (Qplus_0_r ((n0 - n1) * x)); nra).
  assert (H1 : (n0 - n1) * x <= 0.00008 * x) by nra.
  assert (H2 : - (0.00008 * x) <= (n0 - n1) * x) by nra.
  apply Qabs_Qle_condition. split; nra.
Qed.

Lemma nm2eV_eV2nm_approximate_witness :
  Qabs (nm2eV CODATA2018 (eV2nm CODATA2018 2) - 2) <= 0.0001 * 2.
Proof.
  apply (nm2eV_eV2nm_approximate CODATA2018 2).
  - repeat split; vm_compute; reflexivity.
  - split; vm_compute; discriminate.
  - vm_compute. reflexivity.
  - vm_compute. discriminate.
Defined.

(* ================================================================== *)
(** * The data left of the seam *)



